(** * Chess-AI: evaluation heuristic and alpha-beta search

    A shallow embedding of [evaluate], [minimax] and the board drawing of
    the [ChessGUI] class from [src/chess_ai.py], together with the
    properties of the search that the specification states and further
    properties of the code.

    The rules engine (the [chess] package: legal-move generation, move
    application, game-over tests, piece lookup) is not part of the
    program; it enters as the type class [RulesEngine].  What the program
    itself does with a board -- reading and assigning [board.turn],
    [board.push], [board.pop] -- is modelled on a board object that
    carries its own undo stack.

    Scores.  Every weight in the source is a decimal literal with at most
    one fractional digit (1, 3.2, 3.3, 5, 9, 100, 0.1, 0.3, 0.5) and the
    terminal scores are integers, so a score is represented exactly as an
    integer number of tenths.  Rounding of the Python floats is not
    modelled. *)

From Stdlib Require Import ZArith List Bool Lia Setoid.
From Stdlib Require String Ascii.
Import ListNotations.
Local Open Scope Z_scope.

(* ================================================================== *)
(** ** Scores with the two sentinels [-math.inf] and [math.inf] *)

Inductive Ext : Type :=
| NegInf
| Fin (tenths : Z)
| PosInf.

(** [x < y] on extended scores. *)
Definition ext_ltb (x y : Ext) : bool :=
  match x, y with
  | NegInf, NegInf => false
  | NegInf, _ => true
  | Fin _, NegInf => false
  | Fin a, Fin b => a <? b
  | Fin _, PosInf => true
  | PosInf, _ => false
  end.

(** [x <= y] on extended scores. *)
Definition ext_leb (x y : Ext) : bool := negb (ext_ltb y x).

(** Python's [max(a, b)]: [a] unless [b] is strictly greater. *)
Definition ext_max (a b : Ext) : Ext := if ext_ltb a b then b else a.

(** Python's [min(a, b)]: [a] unless [b] is strictly smaller. *)
Definition ext_min (a b : Ext) : Ext := if ext_ltb b a then b else a.

(** An integer score of the source, in tenths. *)
Definition units (n : Z) : Z := 10 * n.

Definition is_finite (x : Ext) : bool :=
  match x with Fin _ => true | _ => false end.

Definition ext_lt (x y : Ext) : Prop := ext_ltb x y = true.
Definition ext_le (x y : Ext) : Prop := ext_leb x y = true.

(** The order is the lexicographic one on a tag (-1, 0, 1) and the
    finite magnitude, which linear arithmetic decides. *)
Definition tag (x : Ext) : Z :=
  match x with NegInf => -1 | Fin _ => 0 | PosInf => 1 end.

Definition mag (x : Ext) : Z :=
  match x with Fin z => z | _ => 0 end.

(** What a score [r] returned for the window [alpha], [beta] says about
    the full-width score [v]: at or below [alpha] it is an upper bound, at
    or above [beta] a lower bound, strictly inside it is exact. *)
Definition bounds (alpha beta r v : Ext) : Prop :=
  (ext_le r alpha -> ext_le v r)
  /\ (ext_le beta r -> ext_le r v)
  /\ (ext_lt alpha r -> ext_lt r beta -> r = v).

(* ================================================================== *)
(** ** Board objects *)

(** [chess.WHITE] is [True] and [chess.BLACK] is [False]; the source
    relies on it when it writes [not board.turn]. *)
Definition Color := bool.
Definition WHITE : Color := true.
Definition BLACK : Color := false.

Inductive PieceType : Type := PAWN | KNIGHT | BISHOP | ROOK | QUEEN | KING.

Record Piece : Type := { piece_type : PieceType; color : Color }.

(** Squares are numbered 0..63, a1 = 0, h8 = 63. *)
Definition Square := nat.
Definition D4 : Square := 27%nat.
Definition E4 : Square := 28%nat.
Definition D5 : Square := 35%nat.
Definition E5 : Square := 36%nat.

(** What one undo record of the board saves and restores: the placement
    (pieces, castling rights, en-passant square, clocks) and the side to
    move. *)
Record BoardState (Placement : Type) : Type :=
  { placement : Placement; turn : Color }.
Arguments placement {Placement} _.
Arguments turn {Placement} _.

(** The mutable board object: its current state, the moves played and the
    states saved by [push], most recent first. *)
Record Board (Placement Move : Type) : Type :=
  { state : BoardState Placement;
    move_stack : list Move;
    state_stack : list (BoardState Placement) }.
Arguments state {Placement Move} _.
Arguments move_stack {Placement Move} _.
Arguments state_stack {Placement Move} _.

(** The queries and the move function the program takes from the rules
    engine.  Each may depend on the whole board object. *)
Class RulesEngine (Placement Move : Type) : Type :=
  { legal_moves : Board Placement Move -> list Move;
    make_move : Move -> Board Placement Move -> BoardState Placement;
    pieces : PieceType -> Color -> Board Placement Move -> list Square;
    piece_at : Square -> Board Placement Move -> option Piece;
    is_check : Board Placement Move -> bool;
    is_game_over : Board Placement Move -> bool;
    is_checkmate : Board Placement Move -> bool;
    is_stalemate : Board Placement Move -> bool }.

(** The ambient random generator behind [random.choice]. *)
Class RandomSource (Rng : Type) : Type :=
  { randbelow : nat -> Rng -> nat * Rng }.

(* ================================================================== *)
(** ** The effects of the program: one shared board, the random state,
       and exceptions *)

Inductive Exn : Type := IndexError.

Inductive Result (A : Type) : Type :=
| Ok (a : A)
| Raise (e : Exn).
Arguments Ok {A} _.
Arguments Raise {A} _.

Record World (Placement Move Rng : Type) : Type :=
  { board : Board Placement Move; rng : Rng }.
Arguments board {Placement Move Rng} _.
Arguments rng {Placement Move Rng} _.
Arguments Build_World {Placement Move Rng} _ _.

Definition M (W A : Type) : Type := W -> Result (A * W).

Definition ret {W A : Type} (a : A) : M W A := fun w => Ok (a, w).

Definition bind {W A B : Type} (c : M W A) (k : A -> M W B) : M W B :=
  fun w => match c w with
           | Ok (a, w') => k a w'
           | Raise e => Raise e
           end.

Definition raise {W A : Type} (e : Exn) : M W A := fun _ => Raise e.

Notation "x <- c ;; k" := (bind c (fun x => k))
  (at level 61, c at next level, right associativity).
Notation "' pat <- c ;; k" := (bind c (fun x => match x with pat => k end))
  (at level 61, pat pattern, c at next level, right associativity).
Notation "c ;;; k" := (bind c (fun _ => k))
  (at level 61, right associativity).

Section Program.
Context {Placement Move Rng : Type}.
Context {engine : RulesEngine Placement Move}.
Context {random : RandomSource Rng}.

Local Abbreviation board_t := (Board Placement Move).
Local Abbreviation world := (World Placement Move Rng).

(** *** Board primitives *)

Definition with_turn (c : Color) (b : board_t) : board_t :=
  {| state := {| placement := placement (state b); turn := c |};
     move_stack := move_stack b;
     state_stack := state_stack b |}.

(** [board.push(move)]: save the current state, then play the move. *)
Definition push (m : Move) (b : board_t) : board_t :=
  {| state := make_move m b;
     move_stack := m :: move_stack b;
     state_stack := state b :: state_stack b |}.

(** [board.pop()]: restore the state saved by the last [push]; an empty
    stack raises [IndexError]. *)
Definition pop (b : board_t) : option board_t :=
  match move_stack b, state_stack b with
  | _ :: ms, s :: ss =>
      Some {| state := s; move_stack := ms; state_stack := ss |}
  | _, _ => None
  end.

Definition get_board : M world board_t := fun w => Ok (board w, w).

Definition set_turn (c : Color) : M world unit :=
  fun w => Ok (tt, {| board := with_turn c (board w); rng := rng w |}).

Definition board_push (m : Move) : M world unit :=
  fun w => Ok (tt, {| board := push m (board w); rng := rng w |}).

Definition board_pop : M world unit :=
  fun w => match pop (board w) with
           | Some b => Ok (tt, {| board := b; rng := rng w |})
           | None => Raise IndexError
           end.

(** [random.choice(seq)]: [seq[randbelow(len(seq))]], [IndexError] on an
    empty sequence. *)
Definition random_choice (seq : list Move) : M world Move :=
  fun w => match seq with
           | [] => Raise IndexError
           | _ :: _ =>
               let (i, g) := randbelow (length seq) (rng w) in
               match nth_error seq i with
               | Some m => Ok (m, {| board := board w; rng := g |})
               | None => Raise IndexError
               end
           end.

(** *** evaluate *)

Definition len {A : Type} (l : list A) : Z := Z.of_nat (length l).

(** The [piece_values] dictionary, in insertion order, in tenths. *)
Definition piece_values : list (PieceType * Z) :=
  [(PAWN, 10); (KNIGHT, 32); (BISHOP, 33); (ROOK, 50); (QUEEN, 90);
   (KING, 1000)].

Definition center_squares : list Square := [D4; D5; E4; E5].

(** The material loop, started from [score]. *)
Definition material (b : board_t) (score : Z) : Z :=
  fold_left
    (fun score pv =>
       let score := score + len (pieces (fst pv) WHITE b) * snd pv in
       score - len (pieces (fst pv) BLACK b) * snd pv)
    piece_values score.

(** The centre-control loop, started from [score]; 0.3 is 3 tenths. *)
Definition center_control (b : board_t) (score : Z) : Z :=
  fold_left
    (fun score sq =>
       match piece_at sq b with
       | Some piece =>
           if Bool.eqb (color piece) WHITE then score + 3 else score - 3
       | None => score
       end)
    center_squares score.

(** The check bonus; 0.5 is 5 tenths. *)
Definition check_bonus (b : board_t) (score : Z) : Z :=
  if is_check b then score + 5 else score.

(** [evaluate(board)].  The factor 0.1 of the mobility term is 1 tenth;
    [not board.turn] is [negb]. *)
Definition evaluate : M world Z :=
  b <- get_board ;;
  let score := 0 in
  let score := material b score in
  let white_mobility :=
    if Bool.eqb (turn (state b)) WHITE then len (legal_moves b) else 0 in
  set_turn BLACK ;;;
  b <- get_board ;;
  let black_mobility := len (legal_moves b) in
  set_turn (negb (turn (state b))) ;;;
  b <- get_board ;;
  let score := score + 1 * (white_mobility - black_mobility) in
  let score := center_control b score in
  let score := check_bonus b score in
  ret score.

(** *** minimax *)

Local Abbreviation result := (Ext * option Move)%type.

(** The loop of the maximizing branch over the remaining [moves].
    [rec alpha beta] is the recursive call at [depth - 1] for the
    minimizing side.  With [prune = true] this is the source; with
    [prune = false] the [break] is never taken. *)
Fixpoint max_loop (prune : bool) (rec : Ext -> Ext -> M world result)
    (moves : list Move) (alpha beta max_eval : Ext)
    (best_move : option Move) : M world result :=
  match moves with
  | [] => ret (max_eval, best_move)
  | move :: rest =>
      board_push move ;;;
      r <- rec alpha beta ;;
      let eval_score := fst r in
      board_pop ;;;
      let improved := ext_ltb max_eval eval_score in
      let max_eval := if improved then eval_score else max_eval in
      let best_move := if improved then Some move else best_move in
      let alpha := ext_max alpha eval_score in
      if prune && ext_leb beta alpha
      then ret (max_eval, best_move)
      else max_loop prune rec rest alpha beta max_eval best_move
  end.

(** The loop of the minimizing branch. *)
Fixpoint min_loop (prune : bool) (rec : Ext -> Ext -> M world result)
    (moves : list Move) (alpha beta min_eval : Ext)
    (best_move : option Move) : M world result :=
  match moves with
  | [] => ret (min_eval, best_move)
  | move :: rest =>
      board_push move ;;;
      r <- rec alpha beta ;;
      let eval_score := fst r in
      board_pop ;;;
      let improved := ext_ltb eval_score min_eval in
      let min_eval := if improved then eval_score else min_eval in
      let best_move := if improved then Some move else best_move in
      let beta := ext_min beta eval_score in
      if prune && ext_leb beta alpha
      then ret (min_eval, best_move)
      else min_loop prune rec rest alpha beta min_eval best_move
  end.

(** [if best_move is None: best_move = random.choice(legal_moves)]. *)
Definition fallback (legal : list Move) (r : result) : M world result :=
  match snd r with
  | Some m => ret (fst r, Some m)
  | None => m <- random_choice legal ;; ret (fst r, Some m)
  end.

Fixpoint search (prune : bool) (depth : nat) (alpha beta : Ext)
    (maximizing : bool) : M world result :=
  b <- get_board ;;
  if is_game_over b then
    if is_checkmate b then
      ret (Fin (units (if Bool.eqb (turn (state b)) WHITE
                       then -9999 else 9999)), None)
    else if is_stalemate b then ret (Fin (units (-200)), None)
    else ret (Fin (units 0), None)
  else
    match depth with
    | O => s <- evaluate ;; ret (Fin s, None)
    | S depth' =>
        let legal := legal_moves b in
        match legal with
        | [] => s <- evaluate ;; ret (Fin s, None)
        | _ :: _ =>
            if maximizing then
              r <- max_loop prune
                     (fun alpha beta => search prune depth' alpha beta false)
                     legal alpha beta NegInf None ;;
              fallback legal r
            else
              r <- min_loop prune
                     (fun alpha beta => search prune depth' alpha beta true)
                     legal alpha beta PosInf None ;;
              fallback legal r
        end
    end.

(** The program's [minimax]. *)
Definition minimax : nat -> Ext -> Ext -> bool -> M world result :=
  search true.

(** The same search with pruning disabled (full-width minimax), the
    comparison point the specification names. *)
Definition minimax_full : nat -> Ext -> Ext -> bool -> M world result :=
  search false.

(* ------------------------------------------------------------------ *)
(** *** What a run computes

    Pure readings of the program above, used to state and prove its
    properties: the score [evaluate] returns on a board, and the result of
    a search as a function of the board it starts on. *)

(** The score [evaluate] returns when run on board [b]. *)
Definition eval_score (b : board_t) : Z :=
  let white_mobility :=
    if Bool.eqb (turn (state b)) WHITE then len (legal_moves b) else 0 in
  let black_mobility := len (legal_moves (with_turn BLACK b)) in
  check_bonus (with_turn WHITE b)
    (center_control (with_turn WHITE b)
       (material b 0 + 1 * (white_mobility - black_mobility))).

(** The mobility differential as the specification words it: legal moves
    of White minus legal moves of Black, each counted with that side to
    move, in tenths. *)
Definition mobility_differential (b : board_t) : Z :=
  1 * (len (legal_moves (with_turn WHITE b))
       - len (legal_moves (with_turn BLACK b))).

(** The maximizing loop over child scores [child move alpha beta]. *)
Fixpoint max_scan (prune : bool) (child : Move -> Ext -> Ext -> Ext)
    (moves : list Move) (alpha beta max_eval : Ext)
    (best_move : option Move) : result :=
  match moves with
  | [] => (max_eval, best_move)
  | move :: rest =>
      let eval_score := child move alpha beta in
      let improved := ext_ltb max_eval eval_score in
      let max_eval := if improved then eval_score else max_eval in
      let best_move := if improved then Some move else best_move in
      let alpha := ext_max alpha eval_score in
      if prune && ext_leb beta alpha
      then (max_eval, best_move)
      else max_scan prune child rest alpha beta max_eval best_move
  end.

(** The minimizing loop over child scores. *)
Fixpoint min_scan (prune : bool) (child : Move -> Ext -> Ext -> Ext)
    (moves : list Move) (alpha beta min_eval : Ext)
    (best_move : option Move) : result :=
  match moves with
  | [] => (min_eval, best_move)
  | move :: rest =>
      let eval_score := child move alpha beta in
      let improved := ext_ltb eval_score min_eval in
      let min_eval := if improved then eval_score else min_eval in
      let best_move := if improved then Some move else best_move in
      let beta := ext_min beta eval_score in
      if prune && ext_leb beta alpha
      then (min_eval, best_move)
      else min_scan prune child rest alpha beta min_eval best_move
  end.

(** The result of [search prune depth alpha beta maximizing] started on
    board [b]. *)
Fixpoint value (prune : bool) (depth : nat) (alpha beta : Ext)
    (maximizing : bool) (b : board_t) : result :=
  if is_game_over b then
    if is_checkmate b then
      (Fin (units (if Bool.eqb (turn (state b)) WHITE
                   then -9999 else 9999)), None)
    else if is_stalemate b then (Fin (units (-200)), None)
    else (Fin (units 0), None)
  else
    match depth with
    | O => (Fin (eval_score b), None)
    | S depth' =>
        match legal_moves b with
        | [] => (Fin (eval_score b), None)
        | _ :: _ =>
            if maximizing then
              max_scan prune
                (fun m alpha beta =>
                   fst (value prune depth' alpha beta false (push m b)))
                (legal_moves b) alpha beta NegInf None
            else
              min_scan prune
                (fun m alpha beta =>
                   fst (value prune depth' alpha beta true (push m b)))
                (legal_moves b) alpha beta PosInf None
        end
    end.

(** The board a search leaves behind: untouched at a terminal position and
    at an internal node, with White to move where [evaluate] ran on it. *)
Definition settle (depth : nat) (b : board_t) : board_t :=
  if is_game_over b then b
  else match depth, legal_moves b with
       | O, _ => with_turn WHITE b
       | S _, [] => with_turn WHITE b
       | S _, _ :: _ => b
       end.

(** [Some] score and [Some] final world of a run, [None] if it raised. *)
Definition score_of (run : Result (result * world)) : option Ext :=
  match run with Ok (r, _) => Some (fst r) | Raise _ => None end.

Definition move_of (run : Result (result * world)) : option Move :=
  match run with Ok (r, _) => snd r | Raise _ => None end.

Definition board_after {A : Type} (run : Result (A * world))
  : option board_t :=
  match run with Ok (_, w) => Some (board w) | Raise _ => None end.

(** The score the recursive call of an internal node returns for [move]:
    [minimax] at [depth] for the side [maximizing], window [alpha], [beta],
    on the board after [board.push(move)]. *)
Definition child_score (depth : nat) (maximizing : bool) (w : world)
    (move : Move) (alpha beta : Ext) : Ext :=
  match minimax depth alpha beta maximizing
          {| board := push move (board w); rng := rng w |} with
  | Ok (r, _) => fst r
  | Raise _ => NegInf
  end.

(** The moves the maximizing loop examines, in order, each with the score
    its subtree returned; the list stops where the loop breaks. *)
Fixpoint max_examined (child : Move -> Ext -> Ext -> Ext)
    (moves : list Move) (alpha beta : Ext) : list (Move * Ext) :=
  match moves with
  | [] => []
  | move :: rest =>
      let eval_score := child move alpha beta in
      let alpha := ext_max alpha eval_score in
      (move, eval_score)
        :: (if ext_leb beta alpha then []
            else max_examined child rest alpha beta)
  end.

(** The moves the minimizing loop examines. *)
Fixpoint min_examined (child : Move -> Ext -> Ext -> Ext)
    (moves : list Move) (alpha beta : Ext) : list (Move * Ext) :=
  match moves with
  | [] => []
  | move :: rest =>
      let eval_score := child move alpha beta in
      let beta := ext_min beta eval_score in
      (move, eval_score)
        :: (if ext_leb beta alpha then []
            else min_examined child rest alpha beta)
  end.

(** [m] with score [s] is the earliest best entry of [seen]: every entry
    before it is strictly worse, none after it is better. *)
Definition earliest_max (seen : list (Move * Ext)) (s : Ext) (m : Move)
  : Prop :=
  exists before after,
    seen = before ++ (m, s) :: after
    /\ Forall (fun p => ext_ltb (snd p) s = true) before
    /\ Forall (fun p => ext_leb (snd p) s = true) after.

Definition earliest_min (seen : list (Move * Ext)) (s : Ext) (m : Move)
  : Prop :=
  exists before after,
    seen = before ++ (m, s) :: after
    /\ Forall (fun p => ext_ltb s (snd p) = true) before
    /\ Forall (fun p => ext_leb s (snd p) = true) after.

End Program.

(* ================================================================== *)
(** ** The search over any scores

    The loops of [minimax] only compare scores.  [search_with] is [search]
    with the two places where scores are made left open: [of_int] gives
    the score of an integer constant of the source, and [leaf] is the
    evaluator.  With [units] and [evaluate] it is [search] itself; with
    the rank of a float among the floats for a score, it is the search on
    the float scores of the source. *)

Section AnyScores.
Context {Placement Move Rng : Type}.
Context {engine : RulesEngine Placement Move}.
Context {random : RandomSource Rng}.
Variable of_int : Z -> Z.
Variable leaf : M (World Placement Move Rng) Z.

Local Abbreviation world := (World Placement Move Rng).
Local Abbreviation result := (Ext * option Move)%type.

Fixpoint search_with (prune : bool) (depth : nat) (alpha beta : Ext)
    (maximizing : bool) : M world result :=
  b <- get_board ;;
  if is_game_over b then
    if is_checkmate b then
      ret (Fin (of_int (if Bool.eqb (turn (state b)) WHITE
                        then -9999 else 9999)), None)
    else if is_stalemate b then ret (Fin (of_int (-200)), None)
    else ret (Fin (of_int 0), None)
  else
    match depth with
    | O => s <- leaf ;; ret (Fin s, None)
    | S depth' =>
        let legal := legal_moves b in
        match legal with
        | [] => s <- leaf ;; ret (Fin s, None)
        | _ :: _ =>
            if maximizing then
              r <- max_loop prune
                     (fun alpha beta =>
                        search_with prune depth' alpha beta false)
                     legal alpha beta NegInf None ;;
              fallback legal r
            else
              r <- min_loop prune
                     (fun alpha beta =>
                        search_with prune depth' alpha beta true)
                     legal alpha beta PosInf None ;;
              fallback legal r
        end
    end.

(** The score the recursive call of an internal node returns for
    [move]. *)
Definition child_score_with (prune : bool) (depth : nat)
    (maximizing : bool) (w : world) (move : Move) (alpha beta : Ext)
  : Ext :=
  match search_with prune depth alpha beta maximizing
          {| board := push move (board w); rng := rng w |} with
  | Ok (r, _) => fst r
  | Raise _ => NegInf
  end.

(** What the search needs of an evaluator: it returns a score, and
    whatever it does to the current state of the board it leaves the move
    stack, the saved states and the random state alone. *)
Definition keeps_stacks : Prop :=
  forall w : world,
    exists s b',
      leaf w = Ok (s, {| board := b'; rng := rng w |})
      /\ move_stack b' = move_stack (board w)
      /\ state_stack b' = state_stack (board w).

End AnyScores.

(* ================================================================== *)
(** ** The window: [ChessGUI]

    The object's fields and what [draw_board] puts on the canvas.  The
    Tk widgets are modelled by what the program stores in them: the items
    on the canvas, the text of the status label and the callbacks handed
    to [root.after].  The event loop ([root.update()], [root.after],
    [mainloop]) and the two handlers that run inside it are not
    modelled. *)

Module ChessGUI.
Import String.
Local Open Scope string_scope.
Local Open Scope nat_scope.

(** A canvas item: [create_rectangle(x0, y0, x1, y1, fill=...)] or
    [create_text(x, y, text=...)]. *)
Inductive Item : Type :=
| Rectangle (x0 y0 x1 y1 : nat) (fill : string)
| Text (x y : nat) (text : string).

(** The only callback the program schedules is [self.ai_move]. *)
Inductive Callback : Type := AiMove.

Inductive GuiExn : Type :=
| SearchRaised (e : Exn)
| KeyError.

Inductive Outcome (A : Type) : Type :=
| Done (a : A)
| Failed (e : GuiExn).
Arguments Done {A} _.
Arguments Failed {A} _.

(** The fields of a [ChessGUI] object. *)
Record Gui (Placement Move Rng : Type) : Type :=
  { session : World Placement Move Rng;
    selected_square : option Square;
    status : string;
    canvas : list Item;
    timers : list (nat * Callback) }.
Arguments session {Placement Move Rng} _.
Arguments selected_square {Placement Move Rng} _.
Arguments status {Placement Move Rng} _.
Arguments canvas {Placement Move Rng} _.
Arguments timers {Placement Move Rng} _.
Arguments Build_Gui {Placement Move Rng} _ _ _ _ _.

Definition square_size : nat := 64.

(** [chess.square(file_index, rank_index)]. *)
Definition chess_square (file_index rank_index : nat) : Square :=
  rank_index * 8 + file_index.

(** [piece.symbol()]: the letter of the piece kind, upper case for
    White. *)
Definition piece_symbol (p : Piece) : string :=
  match piece_type p, color p with
  | PAWN, false => "p" | KNIGHT, false => "n" | BISHOP, false => "b"
  | ROOK, false => "r" | QUEEN, false => "q" | KING, false => "k"
  | PAWN, true => "P" | KNIGHT, true => "N" | BISHOP, true => "B"
  | ROOK, true => "R" | QUEEN, true => "Q" | KING, true => "K"
  end.

(** [self.symbols]. *)
Definition symbols : list (string * string) :=
  [("r", "♜"); ("n", "♞"); ("b", "♝"); ("q", "♛"); ("k", "♚"); ("p", "♟");
   ("R", "♖"); ("N", "♘"); ("B", "♗"); ("Q", "♕"); ("K", "♔"); ("P", "♙")].

(** [self.symbols[key]]; a missing key is a [KeyError]. *)
Fixpoint lookup (key : string) (dict : list (string * string))
  : option string :=
  match dict with
  | [] => None
  | (k, v) :: rest => if String.eqb key k then Some v else lookup key rest
  end.

Definition colors : list string := ["#EEEED2"; "#769656"].

Section Window.
Context {Placement Move Rng : Type}.
Context {engine : RulesEngine Placement Move}.
Context {random : RandomSource Rng}.

Local Abbreviation gui := (Gui Placement Move Rng).

Definition the_board (g : gui) : Board Placement Move := board (session g).

Definition set_canvas (items : list Item) (g : gui) : gui :=
  {| session := session g; selected_square := selected_square g;
     status := status g; canvas := items; timers := timers g |}.

(** [self.selected_square == square]. *)
Definition is_selected (g : gui) (sq : Square) : bool :=
  match selected_square g with
  | Some s => Nat.eqb s sq
  | None => false
  end.

(** The body of the two loops of [draw_board] for row [r], column [c]:
    the items it creates. *)
Definition draw_cell (g : gui) (r c : nat) : Outcome (list Item) :=
  let color := nth (Nat.modulo (r + c) 2) colors "" in
  let color :=
    if is_selected g (chess_square c (7 - r)) then "#BACA44" else color in
  let rectangle :=
    Rectangle (c * square_size) (r * square_size)
              ((c + 1) * square_size) ((r + 1) * square_size) color in
  match piece_at (chess_square c (7 - r)) (the_board g) with
  | Some piece =>
      match lookup (piece_symbol piece) symbols with
      | Some glyph =>
          Done [rectangle;
                Text (c * square_size + Nat.div square_size 2)
                     (r * square_size + Nat.div square_size 2) glyph]
      | None => Failed KeyError
      end
  | None => Done [rectangle]
  end.

Fixpoint draw_cells (g : gui) (cells : list (nat * nat))
    (items : list Item) : Outcome (list Item) :=
  match cells with
  | [] => Done items
  | (r, c) :: rest =>
      match draw_cell g r c with
      | Done new => draw_cells g rest (items ++ new)%list
      | Failed e => Failed e
      end
  end.

(** [for r in range(8): for c in range(8)]. *)
Definition cells : list (nat * nat) :=
  flat_map (fun r => map (fun c => (r, c)) (seq 0 8)) (seq 0 8).

(** [draw_board]: clear the canvas, then draw the 64 squares and the
    pieces on them.  The closing [self.root.update()], which hands
    control to Tk's event loop, is not part of this model. *)
Definition draw_board (g : gui) : Outcome gui :=
  match draw_cells g cells [] with
  | Done items => Done (set_canvas items g)
  | Failed e => Failed e
  end.

(** The square under the pixel [(x, y)], as [on_click] computes it.  The
    canvas is 8 squares wide and high; for a pixel on it [row] and [col]
    are at most 7.  For a pixel off the board ([x] or [y] at 512 or more)
    this is not the source's value: there [7 - row] is negative, here it
    is cut off at 0. *)
Definition clicked_square (x y : nat) : Square :=
  let row := Nat.div y square_size in
  let col := Nat.div x square_size in
  chess_square col (7 - row).

End Window.

End ChessGUI.

(* ================================================================== *)
(** ** A rules engine given by an explicit game tree

    An instance of [RulesEngine] to run the program on: a position is a
    node of a finite game tree that lists, for each side, the positions
    its legal moves lead to.  A move is named by its index in that list,
    the engine's enumeration order.  Positions past the depth the
    examples search to are cut off ([beyond]). *)

Module Demo.

Record Info : Type :=
  { pieces_on : PieceType -> Color -> list Square;
    in_check : Color -> bool;
    drawn : bool }.

#[warnings="-register-all"]
Inductive Tree : Type :=
| Node (info : Info) (white_moves black_moves : list Tree).

Definition info_of (t : Tree) : Info :=
  match t with Node i _ _ => i end.

Definition moves_of (c : Color) (t : Tree) : list Tree :=
  match t with Node _ wm bm => if c then wm else bm end.

Definition Move := nat.
Definition board_t := Board Tree Move.

Definition children (b : board_t) : list Tree :=
  moves_of (turn (state b)) (placement (state b)).

Definition all_pieces : list Piece :=
  flat_map
    (fun pt => [ {| piece_type := pt; color := WHITE |};
                 {| piece_type := pt; color := BLACK |} ])
    [PAWN; KNIGHT; BISHOP; ROOK; QUEEN; KING].

Definition demo_legal_moves (b : board_t) : list Move :=
  seq 0 (length (children b)).

Definition demo_make_move (m : Move) (b : board_t) : BoardState Tree :=
  {| placement := nth m (children b) (placement (state b));
     turn := negb (turn (state b)) |}.

Definition demo_pieces (pt : PieceType) (c : Color) (b : board_t)
  : list Square :=
  pieces_on (info_of (placement (state b))) pt c.

Definition demo_piece_at (sq : Square) (b : board_t) : option Piece :=
  find (fun p => existsb (Nat.eqb sq)
                   (demo_pieces (piece_type p) (color p) b))
       all_pieces.

Definition demo_is_check (b : board_t) : bool :=
  in_check (info_of (placement (state b))) (turn (state b)).

Definition no_moves (b : board_t) : bool :=
  match children b with [] => true | _ :: _ => false end.

Definition demo_is_checkmate (b : board_t) : bool :=
  demo_is_check b && no_moves b.

Definition demo_is_stalemate (b : board_t) : bool :=
  negb (demo_is_check b) && no_moves b.

Definition demo_is_game_over (b : board_t) : bool :=
  demo_is_checkmate b || demo_is_stalemate b
  || drawn (info_of (placement (state b))).

#[export] Instance tree_engine : RulesEngine Tree Move :=
  {| legal_moves := demo_legal_moves;
     make_move := demo_make_move;
     pieces := demo_pieces;
     piece_at := demo_piece_at;
     is_check := demo_is_check;
     is_game_over := demo_is_game_over;
     is_checkmate := demo_is_checkmate;
     is_stalemate := demo_is_stalemate |}.

(** A counter standing in for the random generator. *)
#[export] Instance counter_rng : RandomSource nat :=
  {| randbelow := fun n g => (Nat.modulo g n, S g) |}.

(** A generator that always draws 0. *)
Definition zero_rng : RandomSource nat :=
  {| randbelow := fun _ g => (0%nat, g) |}.

Definition world := World Tree Move nat.

(** A fresh board object on position [t] with [c] to move. *)
Definition fresh (t : Tree) (c : Color) : board_t :=
  {| state := {| placement := t; turn := c |};
     move_stack := [];
     state_stack := [] |}.

Definition start (t : Tree) (c : Color) (seed : nat) : world :=
  {| board := fresh t c; rng := seed |}.

Definition no_pieces : PieceType -> Color -> list Square :=
  fun _ _ => [].

Definition beyond : Tree :=
  Node {| pieces_on := no_pieces; in_check := fun _ => false;
          drawn := false |} [] [].

(** Piece lists by kind: White's, then Black's, pawn to king. *)
Definition placed (white black : list (list Square))
  : PieceType -> Color -> list Square :=
  fun pt c =>
    let side := if c then white else black in
    nth (match pt with
         | PAWN => 0 | KNIGHT => 1 | BISHOP => 2
         | ROOK => 3 | QUEEN => 4 | KING => 5
         end)%nat side [].

(** The position after 1. e4 from the standard start.  Black, to move,
    has 20 legal moves; with White to move there would be 30. *)
Definition kings_pawn : Tree :=
  Node {| pieces_on :=
            placed [[8; 9; 10; 11; 28; 13; 14; 15]; [1; 6]; [2; 5];
                    [0; 7]; [3]; [4]]%nat
                   [[48; 49; 50; 51; 52; 53; 54; 55]; [57; 62]; [58; 61];
                    [56; 63]; [59]; [60]]%nat;
          in_check := fun _ => false;
          drawn := false |}
       (repeat beyond 30) (repeat beyond 20).

(** Fool's mate, after 1. f3 e5 2. g4 Qh4#: White, to move, is in check
    and has no legal move. *)
Definition fools_mate : Tree :=
  Node {| pieces_on :=
            placed [[8; 9; 10; 11; 12; 21; 30; 15]; [1; 6]; [2; 5];
                    [0; 7]; [3]; [4]]%nat
                   [[48; 49; 50; 51; 36; 53; 54; 55]; [57; 62]; [58; 61];
                    [56; 63]; [31]; [60]]%nat;
          in_check := fun c => c;
          drawn := false |}
       [] [].

(** White king c7 and queen b6 against the bare king on a8: Black, to
    move, is not in check and has no legal move. *)
Definition cornered_king : Tree :=
  Node {| pieces_on := placed [[]; []; []; []; [41]; [50]]%nat
                              [[]; []; []; []; []; [56]]%nat;
          in_check := fun _ => false;
          drawn := false |}
       [] [].

(** King against king: drawn by insufficient material. *)
Definition bare_kings : Tree :=
  Node {| pieces_on := placed [[]; []; []; []; []; [4]]%nat
                              [[]; []; []; []; []; [60]]%nat;
          in_check := fun _ => false;
          drawn := true |}
       (repeat beyond 5) (repeat beyond 5).

(** A quiet king-and-pawn position with [wp] white and [bp] black pawns
    on their home ranks, [wm] moves for White and [bm] for Black. *)
Definition quiet (wp bp wm bm : nat) : Tree :=
  Node {| pieces_on :=
            placed [seq 8 wp; []; []; []; []; [4]]%nat
                   [seq 48 bp; []; []; []; []; [60]]%nat;
          in_check := fun _ => false;
          drawn := false |}
       (repeat beyond wm) (repeat beyond bm).

(** A node whose moves lead to the given positions, whoever is to
    move. *)
Definition fork (wp bp : nat) (next : list Tree) : Tree :=
  Node {| pieces_on :=
            placed [seq 8 wp; []; []; []; []; [4]]%nat
                   [seq 48 bp; []; []; []; []; [60]]%nat;
          in_check := fun _ => false;
          drawn := false |}
       next next.

(** Three moves for White; the first two lead to equally good
    positions. *)
Definition tied_choice : Tree :=
  fork 2 2 [quiet 3 2 4 2; quiet 3 2 4 2; quiet 2 2 4 5].

(** Two plies: the second reply to White's second move is never
    examined by the pruning search. *)
Definition two_ply : Tree :=
  fork 2 2 [fork 2 2 [quiet 3 2 5 2; quiet 2 2 4 1];
            fork 2 2 [quiet 2 3 1 3; quiet 4 2 6 1]].

End Demo.

(* ================================================================== *)
(** ** A window and two more positions on the game-tree engine *)

Module DemoWindow.
Import Demo ChessGUI.

(** King g1 and a rook against king g8 behind its pawns f7, g7, h7: the
    rook on [rook], Black in check or not, and the positions each side's
    moves lead to. *)
Definition back_rank (rook : Square) (black_in_check : bool)
    (white_moves black_moves : list Tree) : Tree :=
  Node {| pieces_on := placed [[]; []; []; [rook]; []; [6]]%nat
                              [[53; 54; 55]; []; []; []; []; [62]]%nat;
          in_check := fun c => negb c && black_in_check;
          drawn := false |}
       white_moves black_moves.

(** The rook on e8: Black is in check and has no legal move. *)
Definition black_mated : Tree := back_rank 60%nat true [] [].

(** The rook on e1, White to move; of the two moves listed the second,
    rook to e8, mates. *)
Definition mate_in_one : Tree :=
  back_rank 4%nat false
    [back_rank 12%nat false (repeat beyond 4) (repeat beyond 3);
     black_mated]
    [].

(** Three moves for White, scoring 3.0, 7.0 and 7.0. *)
Definition cut_node : Tree :=
  fork 2 2 [quiet 6 2 4 10; quiet 8 0 4 10; quiet 8 0 4 10].

(** A window on position [t] with [c] to move and nothing selected. *)
Definition window (t : Tree) (c : Color) : Gui Tree Move nat :=
  {| session := start t c 0;
     selected_square := None;
     status := String.EmptyString;
     canvas := [];
     timers := [] |}.

End DemoWindow.

(* ================================================================== *)
(** ** The order on extended scores *)

Lemma ext_ltb_false_le (x y : Ext) : ext_ltb x y = false <-> ext_le y x.
Proof.
  unfold ext_le, ext_leb. destruct (ext_ltb x y); simpl; intuition congruence.
Qed.

Lemma ext_leb_false_lt (x y : Ext) : ext_leb x y = false <-> ext_lt y x.
Proof.
  unfold ext_lt, ext_leb. destruct (ext_ltb y x); simpl; intuition congruence.
Qed.

Lemma ext_ltb_enc (x y : Ext) :
  ext_ltb x y = true
  <-> (tag x < tag y \/ (tag x = tag y /\ mag x < mag y)).
Proof.
  destruct x, y; simpl; rewrite ?Z.ltb_lt;
    intuition (try discriminate; try lia).
Qed.

Lemma ext_ltb_enc_false (x y : Ext) :
  ext_ltb x y = false
  <-> (tag y < tag x \/ (tag x = tag y /\ mag y <= mag x)).
Proof.
  destruct x, y; simpl; rewrite ?Z.ltb_ge;
    intuition (try discriminate; try lia).
Qed.

Lemma ext_eq_enc (x y : Ext) :
  x = y <-> (tag x = tag y /\ mag x = mag y).
Proof.
  destruct x, y; simpl; split; intros H;
    try discriminate; try (destruct H; discriminate);
    try (split; reflexivity); try reflexivity.
  - injection H as ->. now split.
  - destruct H as [_ ->]. reflexivity.
Qed.

Ltac ext_lia :=
  unfold ext_le, ext_lt, ext_leb, ext_max, ext_min in *;
  repeat match goal with
         | |- context [if ext_ltb ?a ?b then _ else _] =>
             destruct (ext_ltb a b) eqn:?
         | H : context [if ext_ltb ?a ?b then _ else _] |- _ =>
             destruct (ext_ltb a b) eqn:?
         end;
  rewrite ?negb_true_iff, ?negb_false_iff in *;
  rewrite ?ext_ltb_enc, ?ext_ltb_enc_false, ?ext_eq_enc in *;
  lia.

Lemma ext_lt_irrefl x : ~ ext_lt x x.
Proof. intro H. ext_lia. Qed.

Lemma ext_le_refl x : ext_le x x.
Proof. ext_lia. Qed.

Lemma ext_lt_le x y : ext_lt x y -> ext_le x y.
Proof. intros. ext_lia. Qed.

Lemma ext_le_trans x y z : ext_le x y -> ext_le y z -> ext_le x z.
Proof. intros. ext_lia. Qed.

Lemma ext_lt_le_trans x y z : ext_lt x y -> ext_le y z -> ext_lt x z.
Proof. intros. ext_lia. Qed.

Lemma ext_le_lt_trans x y z : ext_le x y -> ext_lt y z -> ext_lt x z.
Proof. intros. ext_lia. Qed.

Lemma ext_le_antisym x y : ext_le x y -> ext_le y x -> x = y.
Proof. intros. ext_lia. Qed.

Lemma ext_le_lt_dec x y : ext_le x y \/ ext_lt y x.
Proof.
  destruct (ext_ltb y x) eqn:E; [right; exact E | left].
  now apply ext_ltb_false_le.
Qed.

Lemma finite_between x : is_finite x = true -> ext_lt NegInf x /\ ext_lt x PosInf.
Proof. destruct x; simpl; intros; try discriminate; now split. Qed.

Lemma is_finite_Fin x : is_finite x = true -> exists z, x = Fin z.
Proof. destruct x; simpl; intros; try discriminate. now exists tenths. Qed.

(* ================================================================== *)
(** ** Runs of the program *)

Section Runs.
Context {Placement Move Rng : Type}.
Context {engine : RulesEngine Placement Move}.
Context {random : RandomSource Rng}.

Local Abbreviation board_t := (Board Placement Move).
Local Abbreviation world := (World Placement Move Rng).
Local Abbreviation result := (Ext * option Move)%type.

Lemma pop_push (m : Move) (b : board_t) : pop (push m b) = Some b.
Proof. destruct b; reflexivity. Qed.

Lemma pop_with_turn (c : Color) (b : board_t) : pop (with_turn c b) = pop b.
Proof. reflexivity. Qed.

Lemma pop_settle_push (depth : nat) (m : Move) (b : board_t) :
  pop (settle depth (push m b)) = Some b.
Proof.
  unfold settle.
  destruct (is_game_over (push m b)); [apply pop_push |].
  destruct depth, (legal_moves (push m b));
    rewrite ?pop_with_turn; apply pop_push.
Qed.

(** [evaluate] returns [eval_score] of the board it is run on and leaves
    that board with White to move. *)
Lemma evaluate_run (w : world) :
  evaluate w
  = Ok (eval_score (board w),
        {| board := with_turn WHITE (board w); rng := rng w |}).
Proof. reflexivity. Qed.

(** *** The loops *)

Section Loops.
Variable prune : bool.
Variable rec : Ext -> Ext -> M world result.
Variable child : Move -> Ext -> Ext -> Ext.
Variable b : board_t.
Variable g : Rng.

Hypothesis rec_run :
  forall m alpha beta, exists r b',
    rec alpha beta {| board := push m b; rng := g |}
    = Ok (r, {| board := b'; rng := g |})
    /\ fst r = child m alpha beta
    /\ pop b' = Some b.

Lemma max_loop_run (moves : list Move) :
  forall alpha beta max_eval best,
    max_loop prune rec moves alpha beta max_eval best
      {| board := b; rng := g |}
    = Ok (max_scan prune child moves alpha beta max_eval best,
          {| board := b; rng := g |}).
Proof.
  induction moves as [|m rest IH]; intros alpha beta max_eval best.
  - reflexivity.
  - destruct (rec_run m alpha beta) as (r & b' & Hr & Hc & Hp).
    cbn [max_loop max_scan]. unfold bind at 1. cbn [board_push board rng].
    unfold bind at 1. rewrite Hr.
    unfold bind at 1. unfold board_pop. cbn [board rng]. rewrite Hp.
    rewrite Hc.
    destruct (prune && ext_leb beta (ext_max alpha (child m alpha beta))).
    + reflexivity.
    + apply IH.
Qed.

Lemma min_loop_run (moves : list Move) :
  forall alpha beta min_eval best,
    min_loop prune rec moves alpha beta min_eval best
      {| board := b; rng := g |}
    = Ok (min_scan prune child moves alpha beta min_eval best,
          {| board := b; rng := g |}).
Proof.
  induction moves as [|m rest IH]; intros alpha beta min_eval best.
  - reflexivity.
  - destruct (rec_run m alpha beta) as (r & b' & Hr & Hc & Hp).
    cbn [min_loop min_scan]. unfold bind at 1. cbn [board_push board rng].
    unfold bind at 1. rewrite Hr.
    unfold bind at 1. unfold board_pop. cbn [board rng]. rewrite Hp.
    rewrite Hc.
    destruct (prune && ext_leb (ext_min beta (child m alpha beta)) alpha).
    + reflexivity.
    + apply IH.
Qed.

End Loops.

(** *** The running best is set by the first move examined *)

Section Finite.
Variable prune : bool.
Variable child : Move -> Ext -> Ext -> Ext.
Hypothesis child_finite : forall m alpha beta, is_finite (child m alpha beta) = true.

Lemma max_scan_set (moves : list Move) :
  forall alpha beta max_eval best,
    is_finite max_eval = true -> best <> None ->
    is_finite (fst (max_scan prune child moves alpha beta max_eval best)) = true
    /\ snd (max_scan prune child moves alpha beta max_eval best) <> None.
Proof.
  induction moves as [|m rest IH]; intros alpha beta max_eval best Hf Hb.
  - now split.
  - cbn [max_scan].
    assert (is_finite (if ext_ltb max_eval (child m alpha beta)
                       then child m alpha beta else max_eval) = true)
      by (destruct (ext_ltb _ _); auto).
    assert ((if ext_ltb max_eval (child m alpha beta)
             then Some m else best) <> None)
      by (destruct (ext_ltb _ _); [discriminate | auto]).
    destruct (prune && _); [now split | now apply IH].
Qed.

Lemma max_scan_first (m : Move) (rest : list Move) (alpha beta : Ext) :
  is_finite (fst (max_scan prune child (m :: rest) alpha beta NegInf None)) = true
  /\ snd (max_scan prune child (m :: rest) alpha beta NegInf None) <> None.
Proof.
  cbn [max_scan].
  pose proof (child_finite m alpha beta) as Hc.
  destruct (child m alpha beta) as [|z|] eqn:E; try discriminate.
  cbn [ext_ltb].
  destruct (prune && _); [split; [reflexivity | discriminate] |].
  apply max_scan_set; [reflexivity | discriminate].
Qed.

Lemma min_scan_set (moves : list Move) :
  forall alpha beta min_eval best,
    is_finite min_eval = true -> best <> None ->
    is_finite (fst (min_scan prune child moves alpha beta min_eval best)) = true
    /\ snd (min_scan prune child moves alpha beta min_eval best) <> None.
Proof.
  induction moves as [|m rest IH]; intros alpha beta min_eval best Hf Hb.
  - now split.
  - cbn [min_scan].
    assert (is_finite (if ext_ltb (child m alpha beta) min_eval
                       then child m alpha beta else min_eval) = true)
      by (destruct (ext_ltb _ _); auto).
    assert ((if ext_ltb (child m alpha beta) min_eval
             then Some m else best) <> None)
      by (destruct (ext_ltb _ _); [discriminate | auto]).
    destruct (prune && _); [now split | now apply IH].
Qed.

Lemma min_scan_first (m : Move) (rest : list Move) (alpha beta : Ext) :
  is_finite (fst (min_scan prune child (m :: rest) alpha beta PosInf None)) = true
  /\ snd (min_scan prune child (m :: rest) alpha beta PosInf None) <> None.
Proof.
  cbn [min_scan].
  pose proof (child_finite m alpha beta) as Hc.
  destruct (child m alpha beta) as [|z|] eqn:E; try discriminate.
  cbn [ext_ltb].
  destruct (prune && _); [split; [reflexivity | discriminate] |].
  apply min_scan_set; [reflexivity | discriminate].
Qed.

End Finite.

(** Every score a search returns is finite. *)
Lemma value_finite (prune : bool) (depth : nat) :
  forall alpha beta maximizing (b : board_t),
    is_finite (fst (value prune depth alpha beta maximizing b)) = true.
Proof.
  induction depth as [|d IH]; intros alpha beta maximizing b; cbn [value];
    destruct (is_game_over b);
    try (destruct (is_checkmate b); [reflexivity |];
         destruct (is_stalemate b); reflexivity);
    try reflexivity.
  destruct (legal_moves b) as [|m rest]; [reflexivity |].
  destruct maximizing.
  - apply max_scan_first. intros; apply IH.
  - apply min_scan_first. intros; apply IH.
Qed.

(** At an internal node the search returns one of the moves it
    examined. *)
Lemma value_move (prune : bool) (depth : nat) alpha beta maximizing
    (b : board_t) :
  is_game_over b = false -> legal_moves b <> [] ->
  snd (value prune (S depth) alpha beta maximizing b) <> None.
Proof.
  intros Hg Hl. cbn [value]. rewrite Hg.
  destruct (legal_moves b) as [|m rest]; [congruence |].
  destruct maximizing.
  - apply max_scan_first. intros; apply value_finite.
  - apply min_scan_first. intros; apply value_finite.
Qed.

Lemma fallback_set (legal : list Move) (r : result) (w : world) :
  snd r <> None -> fallback legal r w = Ok (r, w).
Proof.
  unfold fallback. destruct r as [s [m|]]; simpl; [reflexivity | congruence].
Qed.

(** A run of [search] returns [value] of the board it starts on, leaves
    the board [settle]d and does not touch the random state. *)
Lemma search_run (prune : bool) (depth : nat) :
  forall alpha beta maximizing (b : board_t) (g : Rng),
    search prune depth alpha beta maximizing {| board := b; rng := g |}
    = Ok (value prune depth alpha beta maximizing b,
          {| board := settle depth b; rng := g |}).
Proof.
  induction depth as [|d IH]; intros alpha beta maximizing b g.
  - cbn [search value]. unfold bind at 1, get_board. cbn [board].
    unfold settle.
    destruct (is_game_over b).
    + destruct (is_checkmate b); [reflexivity |].
      destruct (is_stalemate b); reflexivity.
    + reflexivity.
  - cbn [search value]. unfold bind at 1, get_board. cbn [board].
    unfold settle.
    destruct (is_game_over b) eqn:Hg.
    + destruct (is_checkmate b); [reflexivity |].
      destruct (is_stalemate b); reflexivity.
    + destruct (legal_moves b) as [|m rest] eqn:Hl; [reflexivity |].
      destruct maximizing.
      * unfold bind at 1.
        rewrite (max_loop_run prune _
                   (fun m alpha beta =>
                      fst (value prune d alpha beta false (push m b)))).
        -- apply fallback_set. apply max_scan_first.
           intros; apply value_finite.
        -- intros m' a bt. eexists; eexists. split; [apply IH |].
           split; [reflexivity | apply pop_settle_push].
      * unfold bind at 1.
        rewrite (min_loop_run prune _
                   (fun m alpha beta =>
                      fst (value prune d alpha beta true (push m b)))).
        -- apply fallback_set. apply min_scan_first.
           intros; apply value_finite.
        -- intros m' a bt. eexists; eexists. split; [apply IH |].
           split; [reflexivity | apply pop_settle_push].
Qed.

Lemma world_eta (w : world) : w = {| board := board w; rng := rng w |}.
Proof. destruct w; reflexivity. Qed.

Lemma minimax_run (depth : nat) alpha beta maximizing (w : world) :
  minimax depth alpha beta maximizing w
  = Ok (value true depth alpha beta maximizing (board w),
        {| board := settle depth (board w); rng := rng w |}).
Proof. rewrite (world_eta w) at 1. apply search_run. Qed.

Lemma minimax_full_run (depth : nat) alpha beta maximizing (w : world) :
  minimax_full depth alpha beta maximizing w
  = Ok (value false depth alpha beta maximizing (board w),
        {| board := settle depth (board w); rng := rng w |}).
Proof. rewrite (world_eta w) at 1. apply search_run. Qed.

End Runs.

(* ================================================================== *)
(** ** Alpha-beta pruning against full-width search *)

Lemma bounds_refl alpha beta r : bounds alpha beta r r.
Proof. unfold bounds. ext_lia. Qed.

Lemma bounds_full r v :
  is_finite r = true -> bounds NegInf PosInf r v -> r = v.
Proof.
  intros Hf (_ & _ & H). apply finite_between in Hf. now apply H.
Qed.

Lemma ext_max_NegInf alpha : ext_max alpha NegInf = alpha.
Proof. destruct alpha; reflexivity. Qed.

Lemma ext_min_PosInf beta : ext_min beta PosInf = beta.
Proof. destruct beta; reflexivity. Qed.

Lemma pick_max_ge M c : ext_le c (if ext_ltb M c then c else M).
Proof. ext_lia. Qed.

Lemma pick_max_ge_old M c : ext_le M (if ext_ltb M c then c else M).
Proof. ext_lia. Qed.

Lemma pick_min_le M c : ext_le (if ext_ltb c M then c else M) c.
Proof. ext_lia. Qed.

Lemma pick_min_le_old M c : ext_le (if ext_ltb c M then c else M) M.
Proof. ext_lia. Qed.

(** The maximizing step. *)

Lemma max_no_cut alpha beta e :
  ext_leb beta (ext_max alpha e) = false ->
  ext_lt (ext_max alpha e) beta /\ ext_lt e beta.
Proof. intros H. apply ext_leb_false_lt in H. split; ext_lia. Qed.

Lemma max_step_alpha alpha0 alpha me e :
  alpha = ext_max alpha0 me ->
  ext_max alpha e = ext_max alpha0 (if ext_ltb me e then e else me).
Proof. intros ->. ext_lia. Qed.

Lemma max_child_le alpha beta e c :
  bounds alpha beta e c -> ext_lt e beta -> ext_le c e.
Proof. unfold bounds. intros. ext_lia. Qed.

Lemma max_step_le M me c e :
  ext_le M me -> ext_le c e ->
  ext_le (if ext_ltb M c then c else M) (if ext_ltb me e then e else me).
Proof. intros. ext_lia. Qed.

Lemma max_step_exact alpha0 alpha beta me M e c :
  alpha = ext_max alpha0 me -> ext_le M me ->
  (ext_lt alpha0 me -> M = me) ->
  bounds alpha beta e c -> ext_lt e beta ->
  ext_lt alpha0 (if ext_ltb me e then e else me) ->
  (if ext_ltb M c then c else M) = (if ext_ltb me e then e else me).
Proof. unfold bounds. intros ->. intros. ext_lia. Qed.

Lemma max_cut alpha0 alpha beta me e c V :
  alpha = ext_max alpha0 me -> ext_lt alpha beta ->
  ext_leb beta (ext_max alpha e) = true ->
  bounds alpha beta e c -> ext_le c V ->
  bounds alpha0 beta (if ext_ltb me e then e else me) V.
Proof. unfold bounds. intros ->. intros. ext_lia. Qed.

Lemma max_done alpha0 alpha beta me M :
  alpha = ext_max alpha0 me -> ext_lt alpha beta -> ext_le M me ->
  (ext_lt alpha0 me -> M = me) ->
  bounds alpha0 beta me M.
Proof. unfold bounds. intros ->. intros. ext_lia. Qed.

(** The minimizing step. *)

Lemma min_no_cut alpha beta e :
  ext_leb (ext_min beta e) alpha = false ->
  ext_lt alpha (ext_min beta e) /\ ext_lt alpha e.
Proof. intros H. apply ext_leb_false_lt in H. split; ext_lia. Qed.

Lemma min_step_beta beta0 beta me e :
  beta = ext_min beta0 me ->
  ext_min beta e = ext_min beta0 (if ext_ltb e me then e else me).
Proof. intros ->. ext_lia. Qed.

Lemma min_child_ge alpha beta e c :
  bounds alpha beta e c -> ext_lt alpha e -> ext_le e c.
Proof. unfold bounds. intros. ext_lia. Qed.

Lemma min_step_ge M me c e :
  ext_le me M -> ext_le e c ->
  ext_le (if ext_ltb e me then e else me) (if ext_ltb c M then c else M).
Proof. intros. ext_lia. Qed.

Lemma min_step_exact alpha beta0 beta me M e c :
  beta = ext_min beta0 me -> ext_le me M ->
  (ext_lt me beta0 -> M = me) ->
  bounds alpha beta e c -> ext_lt alpha e ->
  ext_lt (if ext_ltb e me then e else me) beta0 ->
  (if ext_ltb c M then c else M) = (if ext_ltb e me then e else me).
Proof. unfold bounds. intros ->. intros. ext_lia. Qed.

Lemma min_cut alpha beta0 beta me e c V :
  beta = ext_min beta0 me -> ext_lt alpha beta ->
  ext_leb (ext_min beta e) alpha = true ->
  bounds alpha beta e c -> ext_le V c ->
  bounds alpha beta0 (if ext_ltb e me then e else me) V.
Proof. unfold bounds. intros ->. intros. ext_lia. Qed.

Lemma min_done alpha beta0 beta me M :
  beta = ext_min beta0 me -> ext_lt alpha beta -> ext_le me M ->
  (ext_lt me beta0 -> M = me) ->
  bounds alpha beta0 me M.
Proof. unfold bounds. intros ->. intros. ext_lia. Qed.

Section AlphaBeta.
Context {Placement Move Rng : Type}.
Context {engine : RulesEngine Placement Move}.
Context {random : RandomSource Rng}.

Local Abbreviation board_t := (Board Placement Move).
Local Abbreviation world := (World Placement Move Rng).

(** A loop that never breaks does not look at its window. *)
Lemma max_scan_full_ext (child child' : Move -> Ext -> Ext -> Ext)
    (moves : list Move) :
  (forall m a bt a' bt', child m a bt = child' m a' bt') ->
  forall a bt a' bt' max_eval best,
    max_scan false child moves a bt max_eval best
    = max_scan false child' moves a' bt' max_eval best.
Proof.
  intros Hc. induction moves as [|m rest IH]; intros; [reflexivity |].
  cbn [max_scan andb]. rewrite (Hc m a bt a' bt'). apply IH.
Qed.

Lemma min_scan_full_ext (child child' : Move -> Ext -> Ext -> Ext)
    (moves : list Move) :
  (forall m a bt a' bt', child m a bt = child' m a' bt') ->
  forall a bt a' bt' min_eval best,
    min_scan false child moves a bt min_eval best
    = min_scan false child' moves a' bt' min_eval best.
Proof.
  intros Hc. induction moves as [|m rest IH]; intros; [reflexivity |].
  cbn [min_scan andb]. rewrite (Hc m a bt a' bt'). apply IH.
Qed.

(** Full-width search ignores the window it is given. *)
Lemma value_full_window (depth : nat) :
  forall a bt a' bt' maximizing (b : board_t),
    value false depth a bt maximizing b
    = value false depth a' bt' maximizing b.
Proof.
  induction depth as [|d IH]; intros; [reflexivity |].
  cbn [value].
  destruct (is_game_over b); [reflexivity |].
  destruct (legal_moves b); [reflexivity |].
  destruct maximizing.
  - apply max_scan_full_ext. intros. now rewrite (IH a0 bt0 a'0 bt'0).
  - apply min_scan_full_ext. intros. now rewrite (IH a0 bt0 a'0 bt'0).
Qed.

Lemma max_scan_full_ge (child : Move -> Ext -> Ext -> Ext)
    (moves : list Move) :
  forall a bt max_eval best,
    ext_le max_eval (fst (max_scan false child moves a bt max_eval best)).
Proof.
  induction moves as [|m rest IH]; intros; [apply ext_le_refl |].
  cbn [max_scan andb].
  eapply ext_le_trans; [apply pick_max_ge_old | apply IH].
Qed.

Lemma min_scan_full_le (child : Move -> Ext -> Ext -> Ext)
    (moves : list Move) :
  forall a bt min_eval best,
    ext_le (fst (min_scan false child moves a bt min_eval best)) min_eval.
Proof.
  induction moves as [|m rest IH]; intros; [apply ext_le_refl |].
  cbn [min_scan andb].
  eapply ext_le_trans; [apply IH | apply pick_min_le_old].
Qed.

Section Scans.
Variable pruned : Move -> Ext -> Ext -> Ext.
Variable full : Move -> Ext.
Hypothesis child_bounds :
  forall m a bt, ext_lt a bt -> bounds a bt (pruned m a bt) (full m).

(** The invariant of the maximizing loop: [alpha] is the caller's
    [alpha0] raised to the running best, still below [beta]; the running
    best is at least the full-width running best, and equal to it once it
    exceeds [alpha0]. *)
Lemma max_scan_bounds (alpha0 beta : Ext) (moves : list Move) :
  forall alpha max_eval full_eval best best' a' bt',
    alpha = ext_max alpha0 max_eval ->
    ext_lt alpha beta ->
    ext_le full_eval max_eval ->
    (ext_lt alpha0 max_eval -> full_eval = max_eval) ->
    bounds alpha0 beta
      (fst (max_scan true pruned moves alpha beta max_eval best))
      (fst (max_scan false (fun m _ _ => full m) moves a' bt'
              full_eval best')).
Proof.
  induction moves as [|m rest IH];
    intros alpha max_eval full_eval best best' a' bt' Ha Hlt Hle Hex.
  - cbn [max_scan fst]. eapply max_done; eauto.
  - cbn [max_scan andb].
    pose proof (child_bounds m alpha beta Hlt) as Hb.
    destruct (ext_leb beta (ext_max alpha (pruned m alpha beta))) eqn:Hcut.
    + cbn [fst]. eapply max_cut; eauto.
      eapply ext_le_trans; [apply pick_max_ge | apply max_scan_full_ge].
    + apply max_no_cut in Hcut. destruct Hcut as [Hlt' He].
      apply IH.
      * now apply max_step_alpha.
      * exact Hlt'.
      * apply max_step_le; [exact Hle |]. eapply max_child_le; eauto.
      * intros Hgt. eapply max_step_exact; eauto.
Qed.

Lemma min_scan_bounds (alpha beta0 : Ext) (moves : list Move) :
  forall beta min_eval full_eval best best' a' bt',
    beta = ext_min beta0 min_eval ->
    ext_lt alpha beta ->
    ext_le min_eval full_eval ->
    (ext_lt min_eval beta0 -> full_eval = min_eval) ->
    bounds alpha beta0
      (fst (min_scan true pruned moves alpha beta min_eval best))
      (fst (min_scan false (fun m _ _ => full m) moves a' bt'
              full_eval best')).
Proof.
  induction moves as [|m rest IH];
    intros beta min_eval full_eval best best' a' bt' Hb0 Hlt Hle Hex.
  - cbn [min_scan fst]. eapply min_done; eauto.
  - cbn [min_scan andb].
    pose proof (child_bounds m alpha beta Hlt) as Hb.
    destruct (ext_leb (ext_min beta (pruned m alpha beta)) alpha) eqn:Hcut.
    + cbn [fst]. eapply min_cut; eauto.
      eapply ext_le_trans; [apply min_scan_full_le | apply pick_min_le].
    + apply min_no_cut in Hcut. destruct Hcut as [Hlt' He].
      apply IH.
      * now apply min_step_beta.
      * exact Hlt'.
      * apply min_step_ge; [exact Hle |]. eapply min_child_ge; eauto.
      * intros Hgt. eapply min_step_exact; eauto.
Qed.

End Scans.

(** The pruning search against the full-width search, for any window. *)
Lemma value_bounds (depth : nat) :
  forall alpha beta maximizing (b : board_t),
    ext_lt alpha beta ->
    bounds alpha beta
      (fst (value true depth alpha beta maximizing b))
      (fst (value false depth NegInf PosInf maximizing b)).
Proof.
  induction depth as [|d IH]; intros alpha beta maximizing b Hlt.
  - cbn [value]. apply bounds_refl.
  - cbn [value].
    destruct (is_game_over b); [apply bounds_refl |].
    destruct (legal_moves b) as [|m rest]; [apply bounds_refl |].
    destruct maximizing.
    + rewrite (max_scan_full_ext _
                 (fun m _ _ =>
                    fst (value false d NegInf PosInf false (push m b)))
                 _ (fun m a bt a' bt' =>
                      f_equal fst
                        (value_full_window d a bt NegInf PosInf false
                           (push m b)))
                 NegInf PosInf NegInf PosInf).
      apply (max_scan_bounds
               (fun m a bt => fst (value true d a bt false (push m b)))
               (fun m => fst (value false d NegInf PosInf false (push m b)))).
      * intros; now apply IH.
      * now rewrite ext_max_NegInf.
      * exact Hlt.
      * apply ext_le_refl.
      * reflexivity.
    + rewrite (min_scan_full_ext _
                 (fun m _ _ =>
                    fst (value false d NegInf PosInf true (push m b)))
                 _ (fun m a bt a' bt' =>
                      f_equal fst
                        (value_full_window d a bt NegInf PosInf true
                           (push m b)))
                 NegInf PosInf NegInf PosInf).
      apply (min_scan_bounds
               (fun m a bt => fst (value true d a bt true (push m b)))
               (fun m => fst (value false d NegInf PosInf true (push m b)))).
      * intros; now apply IH.
      * now rewrite ext_min_PosInf.
      * exact Hlt.
      * apply ext_le_refl.
      * reflexivity.
Qed.

(** C1.  For every position, every depth (in particular every depth at
    most 3) and either side, [minimax] called with the full window
    [-inf], [+inf] and the same search with pruning disabled both return,
    and return the same score: pruning never changes the returned
    score. *)
Theorem pruning_preserves_score (depth : nat) (maximizing : bool)
    (w : world) :
  exists s : Z,
    score_of (minimax depth NegInf PosInf maximizing w) = Some (Fin s)
    /\ score_of (minimax_full depth NegInf PosInf maximizing w)
       = Some (Fin s).
Proof.
  rewrite minimax_run, minimax_full_run. cbn [score_of].
  destruct (is_finite_Fin _
              (value_finite true depth NegInf PosInf maximizing (board w)))
    as [s Hs].
  exists s. split; [now rewrite Hs |].
  rewrite <- Hs. f_equal. symmetry. apply bounds_full.
  - apply value_finite.
  - now apply value_bounds.
Qed.

End AlphaBeta.

(* ================================================================== *)
(** ** Terminal positions, the horizon and the board after a search *)

Section Search.
Context {Placement Move Rng : Type}.
Context {engine : RulesEngine Placement Move}.
Context {random : RandomSource Rng}.

Local Abbreviation board_t := (Board Placement Move).
Local Abbreviation world := (World Placement Move Rng).

Lemma with_turn_same (b : board_t) : with_turn (turn (state b)) b = b.
Proof. destruct b as [[p t] ms ss]; reflexivity. Qed.

(** [evaluate] always returns with White to move, whoever was to move
    when it was called. *)
Lemma evaluate_leaves_white (w : world) :
  board_after (evaluate w) = Some (with_turn WHITE (board w)).
Proof. reflexivity. Qed.

(** With White to move, [evaluate] hands the board back as it was. *)
Lemma evaluate_restores_white (w : world) :
  turn (state (board w)) = WHITE ->
  board_after (evaluate w) = Some (board w).
Proof.
  intros H. rewrite evaluate_leaves_white, <- H. now rewrite with_turn_same.
Qed.

(** With Black to move, the board [evaluate] hands back differs from the
    one it was given. *)
Lemma evaluate_flips_black (w : world) :
  turn (state (board w)) = BLACK ->
  board_after (evaluate w) <> Some (board w).
Proof.
  intros H. rewrite evaluate_leaves_white. intros E.
  injection E as E. apply (f_equal (fun b => turn (state b))) in E.
  rewrite H in E. discriminate.
Qed.

Lemma center_control_shift (b : board_t) (score : Z) :
  center_control b score = score + center_control b 0.
Proof.
  unfold center_control, center_squares. cbn [fold_left].
  repeat match goal with
         | |- context [piece_at ?sq b] =>
             destruct (piece_at sq b) as [[? []]|]; cbn [color Bool.eqb WHITE]
         end; lia.
Qed.

Lemma check_bonus_shift (b : board_t) (score : Z) :
  check_bonus b score = score + check_bonus b 0.
Proof. unfold check_bonus. destruct (is_check b); lia. Qed.

(** C4, as the code has it.  The score of [evaluate] is the sum of the
    material, mobility, centre and check terms, and its mobility term is:
    with White to move, a tenth of (White's legal moves minus Black's),
    Black's counted after setting the side to move to Black; with Black to
    move, White's count is taken as 0 and the term is minus a tenth of
    Black's legal moves. *)
Theorem evaluate_mobility_term (w : world) :
  let b := board w in
  let mobility :=
    if Bool.eqb (turn (state b)) WHITE then mobility_differential b
    else 1 * (0 - len (legal_moves (with_turn BLACK b))) in
  exists w',
    evaluate w
    = Ok (material b 0 + mobility
          + center_control (with_turn WHITE b) 0
          + check_bonus (with_turn WHITE b) 0, w').
Proof.
  cbv zeta. eexists. rewrite evaluate_run. f_equal. f_equal.
  unfold eval_score, mobility_differential.
  rewrite check_bonus_shift, center_control_shift.
  destruct (turn (state (board w))) eqn:Ht; cbn [Bool.eqb WHITE].
  - pose proof (with_turn_same (board w)) as Hw. rewrite Ht in Hw.
    unfold WHITE. now rewrite Hw.
  - reflexivity.
Qed.

(** C5.  On a position where the game is over by checkmate, [minimax]
    returns -9999 if White is to move and +9999 otherwise, with no move,
    for every depth, window and [maximizing] flag, and leaves the board
    alone. *)
Theorem minimax_checkmate (depth : nat) (alpha beta : Ext)
    (maximizing : bool) (w : world) :
  is_game_over (board w) = true ->
  is_checkmate (board w) = true ->
  minimax depth alpha beta maximizing w
  = Ok ((Fin (units (if Bool.eqb (turn (state (board w))) WHITE
                     then -9999 else 9999)), None), w).
Proof.
  intros Hg Hc. rewrite minimax_run.
  destruct depth; cbn [value]; unfold settle; rewrite Hg, Hc;
    now rewrite <- world_eta.
Qed.

(** C6.  On a position where the game is over but not by checkmate,
    [minimax] returns -200 if it is a stalemate, whichever side is
    stalemated, and 0 for every other ending, with no move, for every
    depth, window and [maximizing] flag. *)
Theorem minimax_stalemate_or_draw (depth : nat) (alpha beta : Ext)
    (maximizing : bool) (w : world) :
  is_game_over (board w) = true ->
  is_checkmate (board w) = false ->
  minimax depth alpha beta maximizing w
  = Ok ((Fin (units (if is_stalemate (board w) then -200 else 0)), None),
        w).
Proof.
  intros Hg Hc. rewrite minimax_run.
  destruct depth; cbn [value]; unfold settle; rewrite Hg, Hc;
    rewrite <- world_eta; now destruct (is_stalemate (board w)).
Qed.

(** C7.  At depth 0 on a position that is not terminal, [minimax] with
    the full window is exactly a run of [evaluate]: it returns the
    evaluator's score and no move, for either [maximizing] flag. *)
Theorem minimax_horizon (maximizing : bool) (w : world) :
  is_game_over (board w) = false ->
  minimax 0 NegInf PosInf maximizing w
  = (s <- evaluate ;; ret (Fin s, None)) w.
Proof.
  intros Hg. unfold minimax. cbn [search].
  unfold bind at 1, get_board. now rewrite Hg.
Qed.

(** The board a run of [minimax] leaves behind. *)
Lemma minimax_board_after (depth : nat) alpha beta maximizing (w : world) :
  board_after (minimax depth alpha beta maximizing w)
  = Some (settle depth (board w)).
Proof. now rewrite minimax_run. Qed.

(** At an internal node every [push] is undone: the board is handed back
    as it was. *)
Lemma minimax_restores_internal (depth : nat) alpha beta maximizing
    (w : world) :
  is_game_over (board w) = false -> legal_moves (board w) <> [] ->
  board_after (minimax (S depth) alpha beta maximizing w) = Some (board w).
Proof.
  intros Hg Hl. rewrite minimax_board_after. unfold settle. rewrite Hg.
  destruct (legal_moves (board w)); congruence.
Qed.

(** At the horizon with Black to move the board is handed back with White
    to move. *)
Lemma horizon_flips_black_turn alpha beta maximizing (w : world) :
  is_game_over (board w) = false ->
  turn (state (board w)) = BLACK ->
  board_after (minimax 0 alpha beta maximizing w) <> Some (board w).
Proof.
  intros Hg Ht. rewrite minimax_board_after. unfold settle. rewrite Hg.
  intros E. injection E as E.
  apply (f_equal (fun b => turn (state b))) in E.
  rewrite Ht in E. discriminate.
Qed.

(** *** The move a loop returns *)

Lemma max_scan_move_in (prune : bool) (child : Move -> Ext -> Ext -> Ext)
    (moves : list Move) :
  forall alpha beta max_eval best m,
    snd (max_scan prune child moves alpha beta max_eval best) = Some m ->
    best = Some m \/ In m moves.
Proof.
  induction moves as [|x rest IH]; intros alpha beta max_eval best m H.
  - now left.
  - cbn [max_scan] in H.
    destruct (prune && _).
    + cbn [snd] in H. destruct (ext_ltb _ _).
      * injection H as ->. right; now left.
      * now left.
    + apply IH in H. destruct H as [H | H]; [| right; now right].
      destruct (ext_ltb _ _); [| now left].
      injection H as ->. right; now left.
Qed.

Lemma min_scan_move_in (prune : bool) (child : Move -> Ext -> Ext -> Ext)
    (moves : list Move) :
  forall alpha beta min_eval best m,
    snd (min_scan prune child moves alpha beta min_eval best) = Some m ->
    best = Some m \/ In m moves.
Proof.
  induction moves as [|x rest IH]; intros alpha beta min_eval best m H.
  - now left.
  - cbn [min_scan] in H.
    destruct (prune && _).
    + cbn [snd] in H. destruct (ext_ltb _ _).
      * injection H as ->. right; now left.
      * now left.
    + apply IH in H. destruct H as [H | H]; [| right; now right].
      destruct (ext_ltb _ _); [| now left].
      injection H as ->. right; now left.
Qed.

(** The result of a search at an internal node: a finite score and one of
    the legal moves. *)
Lemma value_internal (prune : bool) (depth : nat) alpha beta maximizing
    (b : board_t) :
  is_game_over b = false -> legal_moves b <> [] ->
  exists s m,
    value prune (S depth) alpha beta maximizing b = (Fin s, Some m)
    /\ In m (legal_moves b).
Proof.
  intros Hg Hl.
  destruct (is_finite_Fin _
              (value_finite prune (S depth) alpha beta maximizing b))
    as [s Hs].
  pose proof (value_move prune depth alpha beta maximizing b Hg Hl) as Hm.
  destruct (value prune (S depth) alpha beta maximizing b) as [s' [m|]] eqn:E;
    [| exfalso; apply Hm; reflexivity].
  cbn [fst] in Hs. subst s'. exists s, m. split; [reflexivity |].
  cbn [value] in E. rewrite Hg in E.
  destruct (legal_moves b) as [|x rest]; [congruence |].
  destruct maximizing.
  - apply (f_equal snd) in E. cbn [snd] in E.
    apply max_scan_move_in in E. destruct E; [discriminate | assumption].
  - apply (f_equal snd) in E. cbn [snd] in E.
    apply min_scan_move_in in E. destruct E; [discriminate | assumption].
Qed.

(** C8, as the code has it.  [minimax] never raises; on a position that
    is not terminal and has a legal move, searched to depth at least 1, it
    returns a move, one of the legal moves; and at depth 0 it returns no
    move, whatever the position. *)
Theorem minimax_total (depth : nat) (alpha beta : Ext) (maximizing : bool)
    (w : world) :
  exists r w',
    minimax depth alpha beta maximizing w = Ok (r, w')
    /\ (is_game_over (board w) = false ->
        legal_moves (board w) <> [] ->
        (1 <= depth)%nat ->
        exists m, snd r = Some m /\ In m (legal_moves (board w)))
    /\ (depth = 0%nat -> snd r = None).
Proof.
  rewrite minimax_run. eexists; eexists. split; [reflexivity |]. split.
  - intros Hg Hl Hd. destruct depth as [|d]; [lia |].
    destruct (value_internal true d alpha beta maximizing (board w) Hg Hl)
      as (s & m & E & Hin).
    exists m. now rewrite E.
  - intros ->. cbn [value].
    destruct (is_game_over (board w)); [| reflexivity].
    destruct (is_checkmate (board w)); [reflexivity |].
    destruct (is_stalemate (board w)); reflexivity.
Qed.

End Search.

(** C9.  On a position that is not terminal and has a legal move, searched
    to depth at least 1, [minimax] returns a finite score and a legal move
    that the loop itself selected; the result is the same for every random
    generator and every state of it, and the random state comes back
    untouched: the [random.choice] fallback is never taken. *)
Theorem fallback_unreachable {Placement Move Rng : Type}
    {engine : RulesEngine Placement Move}
    (random1 random2 : RandomSource Rng)
    (depth : nat) (alpha beta : Ext) (maximizing : bool)
    (b : Board Placement Move) (g1 g2 : Rng) :
  is_game_over b = false ->
  legal_moves b <> [] ->
  exists s m,
    In m (legal_moves b)
    /\ @minimax _ _ _ engine random1 (S depth) alpha beta maximizing
         {| board := b; rng := g1 |}
       = Ok ((Fin s, Some m), {| board := b; rng := g1 |})
    /\ @minimax _ _ _ engine random2 (S depth) alpha beta maximizing
         {| board := b; rng := g2 |}
       = Ok ((Fin s, Some m), {| board := b; rng := g2 |}).
Proof.
  intros Hg Hl.
  destruct (value_internal true depth alpha beta maximizing b Hg Hl)
    as (s & m & E & Hin).
  assert (Hs : settle (S depth) b = b).
  { unfold settle. rewrite Hg. destruct (legal_moves b); congruence. }
  exists s, m. split; [exact Hin |].
  split; rewrite minimax_run; cbn [board rng]; now rewrite E, Hs.
Qed.

(* ================================================================== *)
(** ** Which move a node returns *)

Section TieBreak.
Context {Placement Move Rng : Type}.
Context {engine : RulesEngine Placement Move}.
Context {random : RandomSource Rng}.

Local Abbreviation world := (World Placement Move Rng).

Lemma max_examined_ext (child child' : Move -> Ext -> Ext -> Ext)
    (moves : list Move) :
  (forall m a bt, child m a bt = child' m a bt) ->
  forall alpha beta,
    max_examined child moves alpha beta
    = max_examined child' moves alpha beta.
Proof.
  intros Hc. induction moves as [|m rest IH]; intros; [reflexivity |].
  cbn [max_examined]. rewrite Hc, IH. reflexivity.
Qed.

Lemma min_examined_ext (child child' : Move -> Ext -> Ext -> Ext)
    (moves : list Move) :
  (forall m a bt, child m a bt = child' m a bt) ->
  forall alpha beta,
    min_examined child moves alpha beta
    = min_examined child' moves alpha beta.
Proof.
  intros Hc. induction moves as [|m rest IH]; intros; [reflexivity |].
  cbn [min_examined]. rewrite Hc, IH. reflexivity.
Qed.

Lemma child_score_value (depth : nat) (maximizing : bool) (w : world)
    (m : Move) (alpha beta : Ext) :
  child_score depth maximizing w m alpha beta
  = fst (value true depth alpha beta maximizing (push m (board w))).
Proof. unfold child_score. now rewrite minimax_run. Qed.

Section Examined.
Variable child : Move -> Ext -> Ext -> Ext.

(** Either the running best survives the loop and nothing examined beats
    it, or the loop returns the earliest best of what it examined. *)
Lemma max_scan_examined (moves : list Move) :
  forall alpha beta max_eval best,
    (max_scan true child moves alpha beta max_eval best = (max_eval, best)
     /\ Forall (fun p => ext_le (snd p) max_eval)
               (max_examined child moves alpha beta))
    \/ (ext_lt max_eval
               (fst (max_scan true child moves alpha beta max_eval best))
        /\ exists m,
             snd (max_scan true child moves alpha beta max_eval best)
             = Some m
             /\ earliest_max (max_examined child moves alpha beta)
                  (fst (max_scan true child moves alpha beta max_eval best))
                  m).
Proof.
  induction moves as [|x rest IH]; intros alpha beta max_eval best.
  - left. split; [reflexivity | constructor].
  - cbn [max_scan max_examined andb].
    set (e := child x alpha beta).
    destruct (ext_ltb max_eval e) eqn:Himp;
      destruct (ext_leb beta (ext_max alpha e)) eqn:Hcut.
    + right. split; [exact Himp |]. exists x. split; [reflexivity |].
      exists [], []. repeat split; constructor.
    + destruct (IH (ext_max alpha e) beta e (Some x))
        as [[Hr Hall] | [Hlt (m & Hm & before & after & Hs & Hb & Ha)]].
      * right. rewrite Hr. split; [exact Himp |].
        exists x. split; [reflexivity |].
        exists [], (max_examined child rest (ext_max alpha e) beta).
        repeat split; [constructor | exact Hall].
      * right. split; [eapply ext_lt_le_trans;
                       [exact Himp | now apply ext_lt_le] |].
        exists m. split; [exact Hm |].
        exists ((x, e) :: before), after. rewrite Hs.
        repeat split; [constructor; [exact Hlt | exact Hb] | exact Ha].
    + left. split; [reflexivity |].
      constructor; [now apply ext_ltb_false_le | constructor].
    + apply ext_ltb_false_le in Himp.
      destruct (IH (ext_max alpha e) beta max_eval best)
        as [[Hr Hall] | [Hlt (m & Hm & before & after & Hs & Hb & Ha)]].
      * left. split; [exact Hr |]. constructor; assumption.
      * right. split; [exact Hlt |].
        exists m. split; [exact Hm |].
        exists ((x, e) :: before), after. rewrite Hs.
        repeat split; [constructor; [| exact Hb] | exact Ha].
        eapply ext_le_lt_trans; eassumption.
Qed.

Lemma min_scan_examined (moves : list Move) :
  forall alpha beta min_eval best,
    (min_scan true child moves alpha beta min_eval best = (min_eval, best)
     /\ Forall (fun p => ext_le min_eval (snd p))
               (min_examined child moves alpha beta))
    \/ (ext_lt (fst (min_scan true child moves alpha beta min_eval best))
               min_eval
        /\ exists m,
             snd (min_scan true child moves alpha beta min_eval best)
             = Some m
             /\ earliest_min (min_examined child moves alpha beta)
                  (fst (min_scan true child moves alpha beta min_eval best))
                  m).
Proof.
  induction moves as [|x rest IH]; intros alpha beta min_eval best.
  - left. split; [reflexivity | constructor].
  - cbn [min_scan min_examined andb].
    set (e := child x alpha beta).
    destruct (ext_ltb e min_eval) eqn:Himp;
      destruct (ext_leb (ext_min beta e) alpha) eqn:Hcut.
    + right. split; [exact Himp |]. exists x. split; [reflexivity |].
      exists [], []. repeat split; constructor.
    + destruct (IH alpha (ext_min beta e) e (Some x))
        as [[Hr Hall] | [Hlt (m & Hm & before & after & Hs & Hb & Ha)]].
      * right. rewrite Hr. split; [exact Himp |].
        exists x. split; [reflexivity |].
        exists [], (min_examined child rest alpha (ext_min beta e)).
        repeat split; [constructor | exact Hall].
      * right. split; [eapply ext_lt_le_trans;
                       [exact Hlt | now apply ext_lt_le] |].
        exists m. split; [exact Hm |].
        exists ((x, e) :: before), after. rewrite Hs.
        repeat split; [constructor; [exact Hlt | exact Hb] | exact Ha].
    + left. split; [reflexivity |].
      constructor; [now apply ext_ltb_false_le | constructor].
    + apply ext_ltb_false_le in Himp.
      destruct (IH alpha (ext_min beta e) min_eval best)
        as [[Hr Hall] | [Hlt (m & Hm & before & after & Hs & Hb & Ha)]].
      * left. split; [exact Hr |]. constructor; assumption.
      * right. split; [exact Hlt |].
        exists m. split; [exact Hm |].
        exists ((x, e) :: before), after. rewrite Hs.
        repeat split; [constructor; [| exact Hb] | exact Ha].
        eapply ext_lt_le_trans; eassumption.
Qed.

End Examined.

End TieBreak.

(* ================================================================== *)
(** ** Which move a node returns, whatever the scores *)

Section EarliestBest.
Context {Placement Move Rng : Type}.
Context {engine : RulesEngine Placement Move}.
Context {random : RandomSource Rng}.
Variable of_int : Z -> Z.
Variable leaf : M (World Placement Move Rng) Z.
Hypothesis leaf_keeps_stacks : keeps_stacks leaf.

Local Abbreviation board_t := (Board Placement Move).
Local Abbreviation world := (World Placement Move Rng).

Lemma pop_same_stacks (m : Move) (b b' : board_t) :
  move_stack b' = move_stack (push m b) ->
  state_stack b' = state_stack (push m b) ->
  pop b' = Some b.
Proof.
  intros Hm Hs. unfold pop. rewrite Hm, Hs. destruct b; reflexivity.
Qed.

(** A run at [depth] returns a finite score and leaves the stacks and the
    random state alone. *)
Definition runs_clean (depth : nat) : Prop :=
  forall prune alpha beta maximizing (b : board_t) (g : Rng),
    exists r b',
      search_with of_int leaf prune depth alpha beta maximizing
        {| board := b; rng := g |}
      = Ok (r, {| board := b'; rng := g |})
      /\ is_finite (fst r) = true
      /\ move_stack b' = move_stack b
      /\ state_stack b' = state_stack b.

Lemma leaf_run (b : board_t) (g : Rng) :
  exists r b',
    (s <- leaf ;; ret (Fin s, @None Move)) {| board := b; rng := g |}
    = Ok (r, {| board := b'; rng := g |})
    /\ is_finite (fst r) = true
    /\ move_stack b' = move_stack b
    /\ state_stack b' = state_stack b.
Proof.
  destruct (leaf_keeps_stacks {| board := b; rng := g |})
    as (s & b' & Hl & Hm & Hs).
  unfold bind. rewrite Hl. exists (Fin s, None), b'.
  repeat split; assumption.
Qed.

Lemma child_finite (depth : nat) (prune maximizing : bool) (w : world) :
  runs_clean depth ->
  forall m alpha beta,
    is_finite (child_score_with of_int leaf prune depth maximizing w m
                 alpha beta) = true.
Proof.
  intros H m alpha beta. unfold child_score_with.
  destruct (H prune alpha beta maximizing (push m (board w)) (rng w))
    as (r & b' & Hr & Hf & _).
  now rewrite Hr.
Qed.

Lemma child_run (depth : nat) (prune maximizing : bool) (b : board_t)
    (g : Rng) :
  runs_clean depth ->
  forall m alpha beta, exists r b',
    search_with of_int leaf prune depth alpha beta maximizing
      {| board := push m b; rng := g |}
    = Ok (r, {| board := b'; rng := g |})
    /\ fst r = child_score_with of_int leaf prune depth maximizing
                 {| board := b; rng := g |} m alpha beta
    /\ pop b' = Some b.
Proof.
  intros H m alpha beta.
  destruct (H prune alpha beta maximizing (push m b) g)
    as (r & b' & Hr & _ & Hm & Hs).
  exists r, b'. split; [exact Hr |]. split.
  - unfold child_score_with. cbn [board rng]. now rewrite Hr.
  - now apply (pop_same_stacks m).
Qed.

(** At an internal node the search is its loop over the child scores, and
    the board comes back as it was. *)
Lemma internal_run (depth : nat) (prune : bool) (alpha beta : Ext)
    (maximizing : bool) (b : board_t) (g : Rng) :
  runs_clean depth ->
  is_game_over b = false -> legal_moves b <> [] ->
  search_with of_int leaf prune (S depth) alpha beta maximizing
    {| board := b; rng := g |}
  = Ok ((if maximizing
         then max_scan prune
                (child_score_with of_int leaf prune depth false
                   {| board := b; rng := g |})
                (legal_moves b) alpha beta NegInf None
         else min_scan prune
                (child_score_with of_int leaf prune depth true
                   {| board := b; rng := g |})
                (legal_moves b) alpha beta PosInf None),
        {| board := b; rng := g |}).
Proof.
  intros H Hg Hl. cbn [search_with]. unfold bind at 1, get_board.
  cbn [board]. rewrite Hg.
  destruct (legal_moves b) as [|x rest] eqn:El; [congruence |].
  destruct maximizing; unfold bind at 1.
  - rewrite (max_loop_run prune _ _ b g (child_run depth prune false b g H)).
    apply fallback_set. apply max_scan_first. now apply child_finite.
  - rewrite (min_loop_run prune _ _ b g (child_run depth prune true b g H)).
    apply fallback_set. apply min_scan_first. now apply child_finite.
Qed.

Lemma search_with_clean (depth : nat) : runs_clean depth.
Proof.
  induction depth as [|d IH]; intros prune alpha beta maximizing b g.
  - cbn [search_with]. unfold bind at 1, get_board. cbn [board].
    destruct (is_game_over b).
    + destruct (is_checkmate b); [| destruct (is_stalemate b)];
        eexists; exists b; repeat split; reflexivity.
    + apply leaf_run.
  - destruct (is_game_over b) eqn:Hg.
    + cbn [search_with]. unfold bind at 1, get_board. cbn [board].
      rewrite Hg.
      destruct (is_checkmate b); [| destruct (is_stalemate b)];
        eexists; exists b; repeat split; reflexivity.
    + destruct (legal_moves b) as [|x rest] eqn:El.
      * cbn [search_with]. unfold bind at 1, get_board. cbn [board].
        rewrite Hg, El. apply leaf_run.
      * assert (Hl : legal_moves b <> []) by (rewrite El; discriminate).
        rewrite (internal_run d prune alpha beta maximizing b g IH Hg Hl).
        eexists; exists b. split; [reflexivity |].
        split; [| split; reflexivity].
        rewrite El. destruct maximizing; cbn [fst].
        -- apply max_scan_first. now apply child_finite.
        -- apply min_scan_first. now apply child_finite.
Qed.

(** C10, as the code has it.  At every internal node (a position that is
    not terminal, with a legal move, searched to depth at least 1, for any
    window), whatever scores the evaluator and the terminal positions
    give, the search returns, among the moves its loop examined before it
    stopped, the earliest one in the engine's enumeration order whose
    subtree returned the best score: every move examined before it scored
    strictly worse, and none examined after it scored better.  Moves after
    a pruning break are not examined. *)
Theorem earliest_best_examined (depth : nat) (alpha beta : Ext)
    (maximizing : bool) (w : world) :
  is_game_over (board w) = false ->
  legal_moves (board w) <> [] ->
  exists s m,
    search_with of_int leaf true (S depth) alpha beta maximizing w
    = Ok ((s, Some m), w)
    /\ if maximizing
       then earliest_max
              (max_examined (child_score_with of_int leaf true depth false w)
                 (legal_moves (board w)) alpha beta) s m
       else earliest_min
              (min_examined (child_score_with of_int leaf true depth true w)
                 (legal_moves (board w)) alpha beta) s m.
Proof.
  intros Hg Hl. destruct w as [b g]. cbn [board] in *.
  rewrite (internal_run depth true alpha beta maximizing b g
             (search_with_clean depth) Hg Hl).
  destruct (legal_moves b) as [|x rest] eqn:El; [congruence |].
  destruct maximizing.
  - set (child := child_score_with of_int leaf true depth false
                    {| board := b; rng := g |}).
    destruct (max_scan_examined child (x :: rest) alpha beta NegInf None)
      as [[Hr Hall] | [_ (m & Hm & Hbest)]].
    + exfalso. inversion Hall as [|p l Hp _]; subst.
      cbn [snd] in Hp.
      pose proof (child_finite depth true false {| board := b; rng := g |}
                    (search_with_clean depth) x alpha beta) as Hf.
      fold child in Hf. destruct (child x alpha beta); discriminate.
    + destruct (max_scan true child (x :: rest) alpha beta NegInf None)
        as [s o]. cbn [fst snd] in *. subst o.
      exists s, m. split; [reflexivity | exact Hbest].
  - set (child := child_score_with of_int leaf true depth true
                    {| board := b; rng := g |}).
    destruct (min_scan_examined child (x :: rest) alpha beta PosInf None)
      as [[Hr Hall] | [_ (m & Hm & Hbest)]].
    + exfalso. inversion Hall as [|p l Hp _]; subst.
      cbn [snd] in Hp.
      pose proof (child_finite depth true true {| board := b; rng := g |}
                    (search_with_clean depth) x alpha beta) as Hf.
      fold child in Hf. destruct (child x alpha beta); discriminate.
    + destruct (min_scan true child (x :: rest) alpha beta PosInf None)
        as [s o]. cbn [fst snd] in *. subst o.
      exists s, m. split; [reflexivity | exact Hbest].
Qed.

End EarliestBest.

(** [minimax] is the search over the integer tenths of [evaluate]. *)
Lemma minimax_is_search_with {Placement Move Rng : Type}
    {engine : RulesEngine Placement Move} {random : RandomSource Rng} :
  @minimax Placement Move Rng engine random
  = search_with units evaluate true.
Proof. reflexivity. Qed.

Lemma evaluate_keeps_stacks {Placement Move Rng : Type}
    {engine : RulesEngine Placement Move} :
  keeps_stacks (@evaluate Placement Move Rng engine).
Proof.
  intros w. rewrite evaluate_run. eexists; eexists.
  split; [reflexivity |]. split; reflexivity.
Qed.

(* ================================================================== *)
(** ** The program on the game-tree engine *)

Module Examples.
Import Demo.

(** After 1. e4 with Black to move: material is level, the e4 pawn holds
    a centre square, nobody is in check; [evaluate] returns -1.7 and
    leaves White to move. *)
Example evaluate_kings_pawn :
  evaluate (start kings_pawn BLACK 0)
  = Ok (-17, start kings_pawn WHITE 0).
Proof. reflexivity. Qed.

Example kings_pawn_terms :
  material (fresh kings_pawn BLACK) 0 = 0
  /\ mobility_differential (fresh kings_pawn BLACK) = 10
  /\ center_control (fresh kings_pawn WHITE) 0 = 3
  /\ check_bonus (fresh kings_pawn WHITE) 0 = 0.
Proof. repeat split. Qed.

(** The same position with White to move: 30 moves against 20. *)
Example evaluate_kings_pawn_white :
  evaluate (start kings_pawn WHITE 0)
  = Ok (13, start kings_pawn WHITE 0).
Proof. reflexivity. Qed.

(** Two plies with a cut-off: pruning and full width agree on 0.3 and on
    the first move. *)
Example two_ply_pruned :
  minimax 2 NegInf PosInf true (start two_ply WHITE 7)
  = Ok ((Fin 3, Some 0%nat), start two_ply WHITE 7).
Proof. reflexivity. Qed.

Example two_ply_full :
  minimax_full 2 NegInf PosInf true (start two_ply WHITE 7)
  = Ok ((Fin 3, Some 0%nat), start two_ply WHITE 7).
Proof. reflexivity. Qed.

(** The second reply to White's second move is not examined. *)
Example two_ply_cut :
  max_examined (child_score 1 false (start two_ply WHITE 7))
    (legal_moves (fresh two_ply WHITE)) NegInf PosInf
  = [(0%nat, Fin 3); (1%nat, Fin (-12))]
  /\ min_examined
       (child_score 0 true
          {| board := push 1%nat (fresh two_ply WHITE); rng := 7%nat |})
       [0%nat; 1%nat] (Fin 3) PosInf
     = [(0%nat, Fin (-12))].
Proof. split; reflexivity. Qed.

(** Two moves tie at 0.8; the first is returned. *)
Example tied_choice_first :
  minimax 1 NegInf PosInf true (start tied_choice WHITE 7)
  = Ok ((Fin 8, Some 0%nat), start tied_choice WHITE 7)
  /\ max_examined (child_score 0 false (start tied_choice WHITE 7))
       (legal_moves (fresh tied_choice WHITE)) NegInf PosInf
     = [(0%nat, Fin 8); (1%nat, Fin 8); (2%nat, Fin (-5))].
Proof. split; reflexivity. Qed.

(** King against king is over without mate or stalemate: score 0. *)
Example bare_kings_draw :
  minimax 3 NegInf PosInf false (start bare_kings BLACK 0)
  = Ok ((Fin 0, None), start bare_kings BLACK 0).
Proof. reflexivity. Qed.

(** C2 on the code.  [minimax] at depth 0 on the position after 1. e4,
    Black to move and not terminal, returns with the board changed: White
    is to move. *)
Theorem minimax_leaves_board_changed :
  is_game_over (fresh kings_pawn BLACK) = false
  /\ board_after (minimax 0 NegInf PosInf true (start kings_pawn BLACK 0))
     = Some (fresh kings_pawn WHITE)
  /\ fresh kings_pawn WHITE <> fresh kings_pawn BLACK.
Proof.
  split; [reflexivity |]. split; [reflexivity |].
  intros E. apply (f_equal (fun b => turn (state b))) in E. discriminate.
Qed.

(** C3 on the code.  [evaluate] on the position after 1. e4 with Black to
    move returns with White to move: the side to move is not restored. *)
Theorem evaluate_turn_not_restored :
  turn (state (board (start kings_pawn BLACK 0))) = BLACK
  /\ option_map (fun b => turn (state b))
       (board_after (evaluate (start kings_pawn BLACK 0)))
     = Some WHITE.
Proof. split; reflexivity. Qed.

(** C4 as stated fails.  After 1. e4 with Black to move the score of
    [evaluate] is not material plus a tenth of (White's 30 legal moves
    minus Black's 20) plus the centre and check terms. *)
Lemma mobility_differential_fails :
  ~ exists w',
      evaluate (start kings_pawn BLACK 0)
      = Ok (material (fresh kings_pawn BLACK) 0
            + mobility_differential (fresh kings_pawn BLACK)
            + center_control (fresh kings_pawn WHITE) 0
            + check_bonus (fresh kings_pawn WHITE) 0, w').
Proof.
  intros [w' H]. rewrite evaluate_kings_pawn in H.
  injection H as H _. vm_compute in H. discriminate.
Qed.

(** C8 as stated fails.  The position after 1. e4 is not terminal and
    has legal moves, yet at depth 0 [minimax] returns no move. *)
Lemma horizon_returns_no_move :
  is_game_over (fresh kings_pawn BLACK) = false
  /\ length (legal_moves (fresh kings_pawn BLACK)) = 20%nat
  /\ minimax 0 NegInf PosInf true (start kings_pawn BLACK 0)
     = Ok ((Fin (-17), None), start kings_pawn WHITE 0).
Proof. repeat split. Qed.

(** *** The theorems at concrete inputs *)

Lemma minimax_checkmate_at_fools_mate :
  is_game_over (board (start fools_mate WHITE 0)) = true
  /\ is_checkmate (board (start fools_mate WHITE 0)) = true
  /\ minimax 3 NegInf PosInf true (start fools_mate WHITE 0)
     = Ok ((Fin (units (-9999)), None), start fools_mate WHITE 0).
Proof.
  split; [reflexivity |]. split; [reflexivity |].
  apply (minimax_checkmate 3 NegInf PosInf true (start fools_mate WHITE 0));
    reflexivity.
Defined.

Lemma minimax_stalemate_at_cornered_king :
  is_game_over (board (start cornered_king BLACK 0)) = true
  /\ is_checkmate (board (start cornered_king BLACK 0)) = false
  /\ minimax 3 NegInf PosInf true (start cornered_king BLACK 0)
     = Ok ((Fin (units (-200)), None), start cornered_king BLACK 0).
Proof.
  split; [reflexivity |]. split; [reflexivity |].
  exact (minimax_stalemate_or_draw 3 NegInf PosInf true
           (start cornered_king BLACK 0) eq_refl eq_refl).
Defined.

Lemma minimax_horizon_at_kings_pawn :
  is_game_over (board (start kings_pawn BLACK 0)) = false
  /\ minimax 0 NegInf PosInf false (start kings_pawn BLACK 0)
     = (s <- evaluate ;; ret (Fin s, None)) (start kings_pawn BLACK 0).
Proof.
  split; [reflexivity |].
  apply (minimax_horizon false (start kings_pawn BLACK 0)); reflexivity.
Defined.

Lemma minimax_total_at_tied_choice :
  (is_game_over (board (start tied_choice WHITE 7)) = false
   /\ legal_moves (board (start tied_choice WHITE 7)) <> []
   /\ (1 <= 1)%nat
   /\ exists r w',
        minimax 1 NegInf PosInf true (start tied_choice WHITE 7)
        = Ok (r, w')
        /\ exists m, snd r = Some m
                     /\ In m (legal_moves
                                (board (start tied_choice WHITE 7))))
  /\ (is_game_over (board (start kings_pawn BLACK 0)) = false
      /\ exists r w',
           minimax 0 NegInf PosInf true (start kings_pawn BLACK 0)
           = Ok (r, w')
           /\ snd r = None).
Proof.
  split.
  - split; [reflexivity |]. split; [discriminate |]. split; [lia |].
    destruct (minimax_total 1 NegInf PosInf true (start tied_choice WHITE 7))
      as (r & w' & Hrun & Hmove & _).
    exists r, w'. split; [exact Hrun |].
    apply Hmove; [reflexivity | discriminate | lia].
  - split; [reflexivity |].
    destruct (minimax_total 0 NegInf PosInf true (start kings_pawn BLACK 0))
      as (r & w' & Hrun & _ & Hnone).
    exists r, w'. split; [exact Hrun | now apply Hnone].
Defined.

Lemma fallback_unreachable_at_tied_choice :
  is_game_over (fresh tied_choice WHITE) = false
  /\ legal_moves (fresh tied_choice WHITE) <> []
  /\ exists s m,
       In m (legal_moves (fresh tied_choice WHITE))
       /\ @minimax _ _ _ tree_engine counter_rng 1 NegInf PosInf true
            {| board := fresh tied_choice WHITE; rng := 7%nat |}
          = Ok ((Fin s, Some m),
                {| board := fresh tied_choice WHITE; rng := 7%nat |})
       /\ @minimax _ _ _ tree_engine zero_rng 1 NegInf PosInf true
            {| board := fresh tied_choice WHITE; rng := 11%nat |}
          = Ok ((Fin s, Some m),
                {| board := fresh tied_choice WHITE; rng := 11%nat |}).
Proof.
  split; [reflexivity |]. split; [discriminate |].
  apply (fallback_unreachable counter_rng zero_rng 0 NegInf PosInf true
           (fresh tied_choice WHITE) 7%nat 11%nat);
    [reflexivity | discriminate].
Defined.

End Examples.

(* ================================================================== *)
(** ** More on the search: the chosen move, any window, the recurrence *)

(** Order steps for the move the loops keep. *)

Lemma max_cut_high alpha0 alpha beta me e :
  alpha = ext_max alpha0 me -> ext_lt alpha beta ->
  ext_leb beta (ext_max alpha e) = true ->
  ext_le beta (if ext_ltb me e then e else me).
Proof. intros ->. intros. ext_lia. Qed.

Lemma max_step_flag alpha0 alpha beta me M e c :
  alpha = ext_max alpha0 me -> ext_le M me ->
  (ext_lt alpha0 me -> M = me) ->
  bounds alpha beta e c -> ext_lt e beta ->
  ext_lt alpha0 (if ext_ltb me e then e else me) ->
  ext_ltb M c = ext_ltb me e.
Proof.
  unfold bounds. intros ->. intros.
  destruct (ext_ltb M c) eqn:E1, (ext_ltb me e) eqn:E2;
    try reflexivity; exfalso; ext_lia.
Qed.

Lemma min_cut_low alpha beta0 beta me e :
  beta = ext_min beta0 me -> ext_lt alpha beta ->
  ext_leb (ext_min beta e) alpha = true ->
  ext_le (if ext_ltb e me then e else me) alpha.
Proof. intros ->. intros. ext_lia. Qed.

Lemma min_step_flag alpha beta0 beta me M e c :
  beta = ext_min beta0 me -> ext_le me M ->
  (ext_lt me beta0 -> M = me) ->
  bounds alpha beta e c -> ext_lt alpha e ->
  ext_lt (if ext_ltb e me then e else me) beta0 ->
  ext_ltb c M = ext_ltb e me.
Proof.
  unfold bounds. intros ->. intros.
  destruct (ext_ltb c M) eqn:E1, (ext_ltb e me) eqn:E2;
    try reflexivity; exfalso; ext_lia.
Qed.

Section RootMove.
Context {Placement Move Rng : Type}.
Context {engine : RulesEngine Placement Move}.
Context {random : RandomSource Rng}.

Local Abbreviation board_t := (Board Placement Move).
Local Abbreviation world := (World Placement Move Rng).

Section SameMove.
Variable pruned : Move -> Ext -> Ext -> Ext.
Variable full : Move -> Ext.
Hypothesis child_bounds :
  forall m a bt, ext_lt a bt -> bounds a bt (pruned m a bt) (full m).

Lemma max_scan_same (alpha0 beta : Ext) (moves : list Move) :
  forall alpha max_eval full_eval best best' a' bt',
    alpha = ext_max alpha0 max_eval ->
    ext_lt alpha beta ->
    ext_le full_eval max_eval ->
    (ext_lt alpha0 max_eval -> full_eval = max_eval) ->
    (ext_lt alpha0 max_eval -> best = best') ->
    ext_lt alpha0
      (fst (max_scan true pruned moves alpha beta max_eval best)) ->
    ext_lt (fst (max_scan true pruned moves alpha beta max_eval best))
      beta ->
    max_scan true pruned moves alpha beta max_eval best
    = max_scan false (fun m _ _ => full m) moves a' bt' full_eval best'.
Proof.
  induction moves as [|m rest IH];
    intros alpha max_eval full_eval best best' a' bt' Ha Hlt Hle Hex Hmv.
  - cbn [max_scan fst]. intros Hlo _. now rewrite (Hex Hlo), (Hmv Hlo).
  - cbn [max_scan andb].
    pose proof (child_bounds m alpha beta Hlt) as Hb.
    destruct (ext_leb beta (ext_max alpha (pruned m alpha beta))) eqn:Hcut.
    + cbn [fst]. intros _ Hhi. exfalso.
      eapply ext_lt_irrefl, ext_lt_le_trans; [exact Hhi |].
      eapply max_cut_high; eauto.
    + apply max_no_cut in Hcut. destruct Hcut as [Hlt' He].
      intros Hlo Hhi. apply IH; [| | | | | exact Hlo | exact Hhi].
      * now apply max_step_alpha.
      * exact Hlt'.
      * apply max_step_le; [exact Hle |]. eapply max_child_le; eauto.
      * intros Hgt. eapply max_step_exact; eauto.
      * intros Hgt.
        rewrite (max_step_flag alpha0 alpha beta max_eval full_eval
                   (pruned m alpha beta) (full m) Ha Hle Hex Hb He Hgt).
        destruct (ext_ltb max_eval (pruned m alpha beta)) eqn:E;
          [reflexivity |].
        exact (Hmv Hgt).
Qed.

Lemma min_scan_same (alpha beta0 : Ext) (moves : list Move) :
  forall beta min_eval full_eval best best' a' bt',
    beta = ext_min beta0 min_eval ->
    ext_lt alpha beta ->
    ext_le min_eval full_eval ->
    (ext_lt min_eval beta0 -> full_eval = min_eval) ->
    (ext_lt min_eval beta0 -> best = best') ->
    ext_lt alpha
      (fst (min_scan true pruned moves alpha beta min_eval best)) ->
    ext_lt (fst (min_scan true pruned moves alpha beta min_eval best))
      beta0 ->
    min_scan true pruned moves alpha beta min_eval best
    = min_scan false (fun m _ _ => full m) moves a' bt' full_eval best'.
Proof.
  induction moves as [|m rest IH];
    intros beta min_eval full_eval best best' a' bt' Hb0 Hlt Hle Hex Hmv.
  - cbn [min_scan fst]. intros _ Hhi. now rewrite (Hex Hhi), (Hmv Hhi).
  - cbn [min_scan andb].
    pose proof (child_bounds m alpha beta Hlt) as Hb.
    destruct (ext_leb (ext_min beta (pruned m alpha beta)) alpha) eqn:Hcut.
    + cbn [fst]. intros Hlo _. exfalso.
      eapply ext_lt_irrefl, ext_lt_le_trans; [exact Hlo |].
      eapply min_cut_low; eauto.
    + apply min_no_cut in Hcut. destruct Hcut as [Hlt' He].
      intros Hlo Hhi. apply IH; [| | | | | exact Hlo | exact Hhi].
      * now apply min_step_beta.
      * exact Hlt'.
      * apply min_step_ge; [exact Hle |]. eapply min_child_ge; eauto.
      * intros Hgt. eapply min_step_exact; eauto.
      * intros Hgt.
        rewrite (min_step_flag alpha beta0 beta min_eval full_eval
                   (pruned m alpha beta) (full m) Hb0 Hle Hex Hb He Hgt).
        destruct (ext_ltb (pruned m alpha beta) min_eval) eqn:E;
          [reflexivity |].
        exact (Hmv Hgt).
Qed.

End SameMove.

Lemma value_root_same (depth : nat) (maximizing : bool) (b : board_t) :
  value true depth NegInf PosInf maximizing b
  = value false depth NegInf PosInf maximizing b.
Proof.
  destruct depth as [|d]; [reflexivity |].
  pose proof (value_finite true (S d) NegInf PosInf maximizing b) as Hf.
  apply finite_between in Hf. destruct Hf as [Hlo Hhi].
  cbn [value] in *.
  destruct (is_game_over b); [reflexivity |].
  destruct (legal_moves b) as [|m rest]; [reflexivity |].
  destruct maximizing.
  - rewrite (max_scan_full_ext
               (fun m a bt => fst (value false d a bt false (push m b)))
               (fun m _ _ =>
                  fst (value false d NegInf PosInf false (push m b)))
               _ (fun m a bt a' bt' =>
                    f_equal fst
                      (value_full_window d a bt NegInf PosInf false
                         (push m b)))
               NegInf PosInf NegInf PosInf).
    apply (max_scan_same
             (fun m a bt => fst (value true d a bt false (push m b)))
             (fun m => fst (value false d NegInf PosInf false (push m b))))
      with (alpha0 := NegInf);
      [ intros; now apply value_bounds | reflexivity | reflexivity
      | apply ext_le_refl | reflexivity | reflexivity
      | exact Hlo | exact Hhi ].
  - rewrite (min_scan_full_ext
               (fun m a bt => fst (value false d a bt true (push m b)))
               (fun m _ _ =>
                  fst (value false d NegInf PosInf true (push m b)))
               _ (fun m a bt a' bt' =>
                    f_equal fst
                      (value_full_window d a bt NegInf PosInf true
                         (push m b)))
               NegInf PosInf NegInf PosInf).
    apply (min_scan_same
             (fun m a bt => fst (value true d a bt true (push m b)))
             (fun m => fst (value false d NegInf PosInf true (push m b))))
      with (beta0 := PosInf);
      [ intros; now apply value_bounds | reflexivity | reflexivity
      | apply ext_le_refl | reflexivity | reflexivity
      | exact Hlo | exact Hhi ].
Qed.

(** X1.  Called with the full window, [minimax] and the same search with
    pruning disabled run to the same outcome: the same score, the same
    chosen move, the same board and random state afterwards. *)
Theorem pruning_preserves_run (depth : nat) (maximizing : bool) (w : world) :
  minimax depth NegInf PosInf maximizing w
  = minimax_full depth NegInf PosInf maximizing w.
Proof.
  rewrite minimax_run, minimax_full_run. now rewrite value_root_same.
Qed.

(** X2.  For any window with [alpha < beta], the score [r] that [minimax]
    returns relates to the full-width score [v] as follows: if [r] is at
    or below [alpha] then [v <= r]; if [r] is at or above [beta] then
    [r <= v]; if [r] lies strictly inside the window then [r = v]. *)
Theorem pruning_window_sound (depth : nat) (alpha beta : Ext)
    (maximizing : bool) (w : world) :
  ext_ltb alpha beta = true ->
  exists r v,
    score_of (minimax depth alpha beta maximizing w) = Some r
    /\ score_of (minimax_full depth NegInf PosInf maximizing w) = Some v
    /\ (ext_leb r alpha = true -> ext_leb v r = true)
    /\ (ext_leb beta r = true -> ext_leb r v = true)
    /\ (ext_ltb alpha r = true -> ext_ltb r beta = true -> r = v).
Proof.
  intros Hlt. rewrite minimax_run, minimax_full_run. cbn [score_of].
  eexists; eexists. split; [reflexivity |]. split; [reflexivity |].
  apply (value_bounds depth alpha beta maximizing (board w) Hlt).
Qed.

End RootMove.

Section MoreSearch.
Context {Placement Move Rng : Type}.
Context {engine : RulesEngine Placement Move}.
Context {random : RandomSource Rng}.

Local Abbreviation board_t := (Board Placement Move).
Local Abbreviation world := (World Placement Move Rng).

(** A loop that never breaks folds [max] over the child scores. *)
Lemma max_scan_full_fold (child : Move -> Ext) (moves : list Move) :
  forall a bt max_eval best,
    fst (max_scan false (fun m _ _ => child m) moves a bt max_eval best)
    = fold_left (fun best m => ext_max best (child m)) moves max_eval.
Proof.
  induction moves as [|m rest IH]; intros; [reflexivity |].
  cbn [max_scan andb fold_left]. now rewrite IH.
Qed.

Lemma min_scan_full_fold (child : Move -> Ext) (moves : list Move) :
  forall a bt min_eval best,
    fst (min_scan false (fun m _ _ => child m) moves a bt min_eval best)
    = fold_left (fun best m => ext_min best (child m)) moves min_eval.
Proof.
  induction moves as [|m rest IH]; intros; [reflexivity |].
  cbn [min_scan andb fold_left]. now rewrite IH.
Qed.

Lemma child_score_full (depth : nat) (maximizing : bool) (w : world)
    (m : Move) (a bt : Ext) :
  fst (value false depth a bt maximizing (push m (board w)))
  = child_score depth maximizing w m NegInf PosInf.
Proof.
  rewrite child_score_value, value_root_same.
  now rewrite (value_full_window depth a bt NegInf PosInf).
Qed.

(** The score at the root as a fold over the children. *)
Lemma root_score_fold (depth : nat) (maximizing : bool) (w : world) :
  is_game_over (board w) = false ->
  legal_moves (board w) <> [] ->
  score_of (minimax (S depth) NegInf PosInf maximizing w)
  = Some (if maximizing
          then fold_left
                 (fun best m =>
                    ext_max best (child_score depth false w m NegInf PosInf))
                 (legal_moves (board w)) NegInf
          else fold_left
                 (fun best m =>
                    ext_min best (child_score depth true w m NegInf PosInf))
                 (legal_moves (board w)) PosInf).
Proof.
  intros Hg Hl. rewrite minimax_run. cbn [score_of]. f_equal.
  rewrite value_root_same. cbn [value]. rewrite Hg.
  destruct (legal_moves (board w)) as [|x rest] eqn:El; [congruence |].
  destruct maximizing.
  - rewrite (max_scan_full_ext _
               (fun m _ _ => child_score depth false w m NegInf PosInf)
               (x :: rest)
               (fun m a bt a' bt' => child_score_full depth false w m a bt)
               NegInf PosInf NegInf PosInf).
    apply max_scan_full_fold.
  - rewrite (min_scan_full_ext _
               (fun m _ _ => child_score depth true w m NegInf PosInf)
               (x :: rest)
               (fun m a bt a' bt' => child_score_full depth true w m a bt)
               NegInf PosInf NegInf PosInf).
    apply min_scan_full_fold.
Qed.

(** X3.  At an internal node searched with the full window, the score
    [minimax] returns is the maximum (for the maximizing side; the minimum
    for the minimizing side) over the legal moves of the score [minimax]
    itself returns, one ply shallower and with the full window, on the
    position after the move. *)
Theorem minimax_recurrence (depth : nat) (maximizing : bool) (w : world) :
  is_game_over (board w) = false ->
  legal_moves (board w) <> [] ->
  score_of (minimax (S depth) NegInf PosInf maximizing w)
  = Some (if maximizing
          then fold_left
                 (fun best m =>
                    ext_max best (child_score depth false w m NegInf PosInf))
                 (legal_moves (board w)) NegInf
          else fold_left
                 (fun best m =>
                    ext_min best (child_score depth true w m NegInf PosInf))
                 (legal_moves (board w)) PosInf).
Proof. exact (root_score_fold depth maximizing w). Qed.




(** X5.  Whatever its arguments, [minimax] returns without raising and
    leaves the placement, the move stack, the saved states and the random
    state as they were; the side to move is either unchanged or White. *)
Theorem minimax_frame (depth : nat) (alpha beta : Ext) (maximizing : bool)
    (w : world) :
  exists r b',
    minimax depth alpha beta maximizing w
    = Ok (r, {| board := b'; rng := rng w |})
    /\ placement (state b') = placement (state (board w))
    /\ move_stack b' = move_stack (board w)
    /\ state_stack b' = state_stack (board w)
    /\ (turn (state b') = turn (state (board w))
        \/ turn (state b') = WHITE).
Proof.
  rewrite minimax_run. eexists; eexists. split; [reflexivity |].
  unfold settle.
  destruct (is_game_over (board w));
    [repeat split; try reflexivity; now left |].
  destruct depth, (legal_moves (board w));
    cbn [with_turn state placement move_stack state_stack turn];
    repeat split; try reflexivity; first [now left | now right].
Qed.

(** X6.  Called on a board with White to move, as [ai_move] calls it,
    [minimax] hands back the board and the random state exactly as they
    were, at every depth. *)
Theorem minimax_restores_white (depth : nat) (alpha beta : Ext)
    (maximizing : bool) (w : world) :
  turn (state (board w)) = WHITE ->
  exists r, minimax depth alpha beta maximizing w = Ok (r, w).
Proof.
  intros Ht. rewrite minimax_run. eexists. f_equal. f_equal.
  rewrite (world_eta w) at 3. f_equal.
  unfold settle.
  pose proof (with_turn_same (board w)) as Hw. rewrite Ht in Hw.
  destruct (is_game_over (board w)); [reflexivity |].
  destruct depth, (legal_moves (board w)); auto.
Qed.

(** X8.  With White to move, [evaluate] hands back the board and the
    random state exactly as they were. *)
Theorem evaluate_pure_for_white (w : world) :
  turn (state (board w)) = WHITE ->
  evaluate w = Ok (eval_score (board w), w).
Proof.
  intros Ht. rewrite evaluate_run. destruct w as [b g].
  cbn [board rng] in *.
  pose proof (with_turn_same b) as Hw. rewrite Ht in Hw.
  now rewrite Hw.
Qed.

End MoreSearch.

(* ================================================================== *)
(** ** The window: what is drawn *)

Module ChessGUIFacts.
Import String ChessGUI.
Local Open Scope string_scope.
Local Open Scope nat_scope.

Section Window.
Context {Placement Move Rng : Type}.
Context {engine : RulesEngine Placement Move}.
Context {random : RandomSource Rng}.

Local Abbreviation gui := (Gui Placement Move Rng).

Lemma lookup_symbol (p : Piece) :
  exists glyph, lookup (piece_symbol p) symbols = Some glyph.
Proof. destruct p as [[] []]; eexists; reflexivity. Qed.

(** The items [draw_cell] creates, as a list. *)
Lemma draw_cell_done (g : gui) (r c : nat) :
  exists items, draw_cell g r c = Done items.
Proof.
  unfold draw_cell.
  destruct (piece_at _ _) as [p|]; [| eexists; reflexivity].
  destruct (lookup_symbol p) as [glyph ->]. eexists; reflexivity.
Qed.

Lemma draw_cells_done (g : gui) (cs : list (nat * nat)) :
  forall items, exists drawn,
    draw_cells g cs items = Done (items ++ drawn)%list
    /\ forall r c new,
         In (r, c) cs -> draw_cell g r c = Done new ->
         forall i, In i new -> In i drawn.
Proof.
  induction cs as [|[r c] rest IH]; intros items.
  - exists []. split; [now rewrite app_nil_r | intros ? ? ? []].
  - cbn [draw_cells].
    destruct (draw_cell_done g r c) as [new Hnew]. rewrite Hnew.
    destruct (IH (items ++ new)%list) as (drawn & Hd & Hin).
    exists (new ++ drawn)%list. split; [now rewrite Hd, app_assoc |].
    intros r' c' new' [E | Hrest] Hcell i Hi.
    + injection E as <- <-. rewrite Hnew in Hcell. injection Hcell as <-.
      apply in_or_app. now left.
    + apply in_or_app. right. eapply Hin; eauto.
Qed.

Lemma in_cells (r c : nat) : r < 8 -> c < 8 -> In (r, c) cells.
Proof.
  intros Hr Hc. unfold cells. apply in_flat_map. exists r.
  split; [apply in_seq; lia |].
  apply in_map_iff. exists c. split; [reflexivity | apply in_seq; lia].
Qed.

(** [draw_board] never raises: every piece has an entry in
    [self.symbols]. *)
Lemma draw_board_done (g : gui) :
  exists items,
    draw_board g = Done (set_canvas items g)
    /\ forall r c new,
         r < 8 -> c < 8 -> draw_cell g r c = Done new ->
         forall i, In i new -> In i items.
Proof.
  unfold draw_board.
  destruct (draw_cells_done g cells []) as (drawn & Hd & Hin).
  rewrite Hd. cbn [app]. exists drawn. split; [reflexivity |].
  intros r c new Hr Hc. apply Hin. now apply in_cells.
Qed.

Lemma cell_geometry (r c : nat) :
  r < 8 -> c < 8 ->
  Nat.modulo (chess_square c (7 - r)) 8 = c
  /\ Nat.div (chess_square c (7 - r)) 8 = 7 - r
  /\ chess_square c (7 - r) < 64
  /\ nth (Nat.modulo (r + c) 2) colors ""
     = (if Nat.even (c + (7 - r)) then "#769656" else "#EEEED2").
Proof.
  intros Hr Hc.
  do 8 (destruct r as [|r];
        [do 8 (destruct c as [|c];
               [repeat split; (reflexivity || (cbv; lia)) |]); lia |]).
  lia.
Qed.

(** X10.  For every pixel of the 512 by 512 board, [draw_board] does not
    raise and the canvas holds the 64 by 64 rectangle that contains the
    pixel; the square [on_click] computes for the pixel is on the board;
    the rectangle is filled with the highlight colour if that square is
    the selected one, and otherwise dark when file plus rank is even (a1
    is dark) and light when it is odd; and if a piece stands on that
    square its glyph is drawn at the rectangle's centre. *)
Theorem drawn_square_under_click (g : gui) (x y : nat) :
  x < 8 * square_size -> y < 8 * square_size ->
  let sq := clicked_square x y in
  let x0 := Nat.div x square_size * square_size in
  let y0 := Nat.div y square_size * square_size in
  let fill :=
    if is_selected g sq then "#BACA44"
    else if Nat.even (Nat.modulo sq 8 + Nat.div sq 8)
         then "#769656" else "#EEEED2" in
  exists g',
    draw_board g = Done g'
    /\ x0 <= x < x0 + square_size /\ y0 <= y < y0 + square_size
    /\ sq < 64
    /\ In (Rectangle x0 y0 (x0 + square_size) (y0 + square_size) fill)
          (canvas g')
    /\ forall p,
         piece_at sq (the_board g) = Some p ->
         exists glyph,
           lookup (piece_symbol p) symbols = Some glyph
           /\ In (Text (x0 + 32) (y0 + 32) glyph) (canvas g').
Proof.
  unfold square_size. intros Hx Hy. cbv zeta.
  set (r := Nat.div y 64). set (c := Nat.div x 64).
  assert (Hr : r < 8) by (apply Nat.Div0.div_lt_upper_bound; lia).
  assert (Hc : c < 8) by (apply Nat.Div0.div_lt_upper_bound; lia).
  destruct (cell_geometry r c Hr Hc) as (Hmod & Hdiv & Hsq & Hcol).
  destruct (draw_board_done g) as (items & Hdraw & Hin).
  exists (set_canvas items g). split; [exact Hdraw |].
  pose proof (Nat.div_mod_eq x 64) as Ex.
  pose proof (Nat.mod_upper_bound x 64 ltac:(lia)) as Bx.
  pose proof (Nat.div_mod_eq y 64) as Ey.
  pose proof (Nat.mod_upper_bound y 64 ltac:(lia)) as By.
  fold r in Ey. fold c in Ex.
  split; [lia |]. split; [lia |].
  unfold clicked_square, square_size. fold r c.
  split; [exact Hsq |].
  rewrite Hmod, Hdiv. cbn [canvas set_canvas].
  destruct (draw_cell_done g r c) as [new Hnew].
  pose proof (Hin r c new Hr Hc Hnew) as Hitems.
  unfold draw_cell, square_size in Hnew. rewrite Hcol in Hnew.
  replace ((c + 1) * 64) with (c * 64 + 64) in Hnew by lia.
  replace ((r + 1) * 64) with (r * 64 + 64) in Hnew by lia.
  change (Nat.div 64 2) with 32 in Hnew.
  destruct (piece_at (chess_square c (7 - r)) (the_board g)) as [p|] eqn:Ep.
  - destruct (lookup_symbol p) as [glyph Hg]. rewrite Hg in Hnew.
    injection Hnew as <-.
    split; [apply Hitems; now left |].
    intros p' E. injection E as <-. exists glyph.
    split; [exact Hg | apply Hitems; right; now left].
  - injection Hnew as <-.
    split; [apply Hitems; now left | intros p' E; discriminate].
Qed.

(** X11.  Every piece has an entry in [self.symbols], so the lookup in
    [draw_board] never raises [KeyError], and different pieces have
    different glyphs. *)
Theorem symbols_distinct (p q : Piece) :
  exists gp gq,
    lookup (piece_symbol p) symbols = Some gp
    /\ lookup (piece_symbol q) symbols = Some gq
    /\ (gp = gq -> p = q).
Proof.
  destruct p as [[] []], q as [[] []]; eexists; eexists;
    (split; [reflexivity |]); (split; [reflexivity |]);
    intros E; solve [reflexivity | discriminate E].
Qed.

End Window.
End ChessGUIFacts.

(* ================================================================== *)
(** ** The further properties at concrete inputs *)

Module MoreExamples.
Import String Demo DemoWindow ChessGUI ChessGUIFacts.

(** The mating move is the one chosen. *)
Example mate_in_one_found :
  minimax 2 NegInf PosInf true (start mate_in_one WHITE 0)
  = Ok ((Fin (units 9999), Some 1%nat), start mate_in_one WHITE 0).
Proof. reflexivity. Qed.

Lemma pruning_window_sound_at_two_ply :
  ext_ltb (Fin 0) (Fin 10) = true
  /\ exists r v,
       score_of (minimax 2 (Fin 0) (Fin 10) true (start two_ply WHITE 7))
       = Some r
       /\ score_of (minimax_full 2 NegInf PosInf true (start two_ply WHITE 7))
          = Some v
       /\ (ext_leb r (Fin 0) = true -> ext_leb v r = true)
       /\ (ext_leb (Fin 10) r = true -> ext_leb r v = true)
       /\ (ext_ltb (Fin 0) r = true -> ext_ltb r (Fin 10) = true -> r = v).
Proof.
  split; [reflexivity |].
  apply (pruning_window_sound 2 (Fin 0) (Fin 10) true
           (start two_ply WHITE 7)).
  reflexivity.
Defined.

Lemma minimax_recurrence_at_tied_choice :
  is_game_over (board (start tied_choice WHITE 7)) = false
  /\ legal_moves (board (start tied_choice WHITE 7)) <> []
  /\ score_of (minimax 1 NegInf PosInf true (start tied_choice WHITE 7))
     = Some (fold_left
               (fun best m =>
                  ext_max best
                    (child_score 0 false (start tied_choice WHITE 7) m
                       NegInf PosInf))
               (legal_moves (board (start tied_choice WHITE 7))) NegInf).
Proof.
  split; [reflexivity |]. split; [discriminate |].
  apply (minimax_recurrence 0 true (start tied_choice WHITE 7));
    [reflexivity | discriminate].
Defined.


Lemma minimax_restores_white_at_two_ply :
  turn (state (board (start two_ply WHITE 7))) = WHITE
  /\ exists r,
       minimax 2 NegInf PosInf true (start two_ply WHITE 7)
       = Ok (r, start two_ply WHITE 7).
Proof.
  split; [reflexivity |].
  apply (minimax_restores_white 2 NegInf PosInf true
           (start two_ply WHITE 7)).
  reflexivity.
Defined.

Lemma evaluate_pure_for_white_at_kings_pawn :
  turn (state (board (start kings_pawn WHITE 0))) = WHITE
  /\ evaluate (start kings_pawn WHITE 0)
     = Ok (eval_score (board (start kings_pawn WHITE 0)),
           start kings_pawn WHITE 0).
Proof.
  split; [reflexivity |].
  apply (evaluate_pure_for_white (start kings_pawn WHITE 0)). reflexivity.
Defined.

(** After 1. e4 the pixel (260, 70) lies on e7, a dark square where a
    black pawn stands. *)
Example e7_under_pixel :
  clicked_square 260 70 = 52%nat
  /\ piece_at 52%nat (fresh kings_pawn BLACK)
     = Some {| piece_type := PAWN; color := BLACK |}.
Proof. split; reflexivity. Qed.

Lemma drawn_square_under_click_at_e7 :
  (260 < 8 * square_size)%nat /\ (70 < 8 * square_size)%nat
  /\ exists g',
       draw_board (window kings_pawn BLACK) = Done g'
       /\ (256 <= 260 < 256 + square_size)%nat
       /\ (64 <= 70 < 64 + square_size)%nat
       /\ (clicked_square 260 70 < 64)%nat
       /\ In (Rectangle 256 64 (256 + square_size) (64 + square_size)
                "#769656"%string)
             (canvas g')
       /\ forall p,
            piece_at (clicked_square 260 70)
              (the_board (window kings_pawn BLACK)) = Some p ->
            exists glyph,
              lookup (piece_symbol p) symbols = Some glyph
              /\ In (Text (256 + 32) (64 + 32) glyph) (canvas g').
Proof.
  split; [unfold square_size; lia |]. split; [unfold square_size; lia |].
  assert (Hx : (260 < 8 * square_size)%nat) by (unfold square_size; lia).
  assert (Hy : (70 < 8 * square_size)%nat) by (unfold square_size; lia).
  exact (drawn_square_under_click (window kings_pawn BLACK) 260 70 Hx Hy).
Defined.

(** At [cut_node] with beta = 2.0 the loop examines the first move
    only. *)
Example cut_node_examined :
  max_examined (child_score 0 false (start cut_node WHITE 0))
    (legal_moves (fresh cut_node WHITE)) NegInf (Fin 20)
  = [(0%nat, Fin 30)].
Proof. reflexivity. Qed.

(** C10 as stated fails.  At [cut_node], maximizing with beta = 2.0, the
    three legal moves score 3.0, 7.0 and 7.0, so the best score is tied by
    the second and the third; [minimax] breaks after the first move and
    returns it, which is not the earliest legal move with the best
    score. *)
Lemma tied_best_not_returned :
  is_game_over (fresh cut_node WHITE) = false
  /\ map (fun m =>
            (m, child_score 0 false (start cut_node WHITE 0) m NegInf
                  (Fin 20)))
         (legal_moves (fresh cut_node WHITE))
     = [(0%nat, Fin 30); (1%nat, Fin 70); (2%nat, Fin 70)]
  /\ minimax 1 NegInf (Fin 20) true (start cut_node WHITE 0)
     = Ok ((Fin 30, Some 0%nat), start cut_node WHITE 0)
  /\ ~ (exists s m,
          minimax 1 NegInf (Fin 20) true (start cut_node WHITE 0)
          = Ok ((s, Some m), start cut_node WHITE 0)
          /\ earliest_max
               (map (fun m =>
                       (m, child_score 0 false (start cut_node WHITE 0) m
                             NegInf (Fin 20)))
                  (legal_moves (fresh cut_node WHITE))) s m).
Proof.
  split; [reflexivity |]. split; [reflexivity |]. split; [reflexivity |].
  intros (s & m & Hrun & before & after & Hsplit & _ & Hafter).
  assert (Hc : minimax 1 NegInf (Fin 20) true (start cut_node WHITE 0)
               = Ok ((Fin 30, Some 0%nat), start cut_node WHITE 0))
    by reflexivity.
  rewrite Hc in Hrun. injection Hrun as <- <-.
  assert (Hl : map (fun m =>
                      (m, child_score 0 false (start cut_node WHITE 0) m
                            NegInf (Fin 20)))
                 (legal_moves (fresh cut_node WHITE))
               = [(0%nat, Fin 30); (1%nat, Fin 70); (2%nat, Fin 70)])
    by reflexivity.
  rewrite Hl in Hsplit. clear Hc Hl.
  destruct before as [|p1 [|p2 [|p3 before]]]; cbn [app] in Hsplit.
  - injection Hsplit as <-. inversion Hafter as [|? ? Hbad _]; subst.
    discriminate Hbad.
  - injection Hsplit as _ Hbad _. discriminate Hbad.
  - injection Hsplit as _ _ Hbad _. discriminate Hbad.
  - injection Hsplit as _ _ _ Hbad. destruct before; discriminate Hbad.
Qed.

Lemma earliest_best_examined_at_tied_choice :
  keeps_stacks (@evaluate Tree Move nat tree_engine)
  /\ is_game_over (board (start tied_choice WHITE 7)) = false
  /\ legal_moves (board (start tied_choice WHITE 7)) <> []
  /\ exists s m,
       minimax 1 NegInf PosInf true (start tied_choice WHITE 7)
       = Ok ((s, Some m), start tied_choice WHITE 7)
       /\ earliest_max
            (max_examined (child_score 0 false (start tied_choice WHITE 7))
               (legal_moves (board (start tied_choice WHITE 7)))
               NegInf PosInf) s m.
Proof.
  split; [exact evaluate_keeps_stacks |].
  split; [reflexivity |].
  assert (Hl : legal_moves (board (start tied_choice WHITE 7)) <> [])
    by discriminate.
  split; [exact Hl |].
  exact (earliest_best_examined units evaluate evaluate_keeps_stacks
           0 NegInf PosInf true (start tied_choice WHITE 7) eq_refl Hl).
Defined.

End MoreExamples.
